(** * VoiceChanger: the audio session controller of the served page

    The repository serves one page (src/s.py, [html_content]) whose script
    wires a microphone through the Web Audio API.  This file embeds that
    script: its global variables, the controls it enables and disables, the
    part of the browser it drives (the audio graph, capture streams, one-shot
    players, animation frames), and every handler it registers.

    Handlers are written in a small state-and-exception monad, one line of
    the model per line of the script.  A JavaScript exception keeps the
    writes made before it, so a thrown result still carries a state.

    The canvas writes nothing a handler reads, so it is kept apart from the
    session state: the path [drawWaveform] strokes is the function
    [waveform] of the canvas size and the samples.  Left out: the fill and
    stroke styles, the resize listener (lines 352-357), and the Flask
    route, which only returns the page. *)

From Stdlib Require Import List String Bool Arith Lia.
From Stdlib Require Import ZArith QArith Lqa.
Close Scope Q_scope.
Import ListNotations.
Open Scope string_scope.
Open Scope list_scope.

(** ** Data model *)

(** Nodes of the audio graph.  Every object the browser creates gets a handle
    from one counter; [Destination c] is [audioContext.destination] of the
    context with handle [c]. *)
Inductive Node : Type :=
| MicSrc (id : nat)
| DelayN (id : nat)
| AnalyserN (id : nat)
| BufSrc (id : nat)
| Destination (ctx : nat).

Definition Edge : Type := (Node * Node)%type.

(** A decoded file, as the handle of the AudioBuffer object. *)
Definition AudioBuffer : Type := nat.

(** What a drop event carries of each file. *)
Record File : Type := mkFile { file_name : string; file_type : string }.

(** Browser entry points the script calls, in the order it calls them. *)
Inductive Call : Type :=
| CNewContext (c : nat)
| CGetUserMedia
| CCreateSource (k stream : nat)
| CCreateDelay (k : nat)
| CSetDelayTime (k : nat) (milliseconds : nat)
| CCreateAnalyser (k : nat)
| CSetFftSize (k : nat) (size : nat)
| CCreateBufferSource (k : nat)
| CSetBuffer (k : nat) (b : AudioBuffer)
| CConnect (a b : Node)
| CDisconnect (a : Node)
| CTrackStop (stream : nat)
| CRequestFrame (id : nat)
| CCancelFrame (id : nat)
| CSourceStart (k : nat)
| CSourceStop (k : nat)
| CReadFile (f : File)
| CDecode
| CFullscreen.

(** The script's [let] globals (lines 171-179). *)
Record Vars : Type := mkVars {
  audioContext : option nat;
  micStream : option nat;
  micSource : option nat;
  delayNode : option nat;
  analyserNode : option nat;
  droppedAudioBuffer : option AudioBuffer;
  droppedAudioSource : option nat;
  isDelayEnabled : bool;
  animationId : option nat
}.

(** The page elements the script writes (lines 151-159). *)
Record Dom : Type := mkDom {
  startMicBtn_disabled : bool;
  stopMicBtn_disabled : bool;
  toggleDelayBtn_disabled : bool;
  playAudioBtn_disabled : bool;
  statusMessage : string;
  dropZone_dragover : bool
}.

(** The browser side: connections of the audio graph, capture streams whose
    tracks are live, one-shot players that are sounding, scheduled animation
    callbacks, the handle counters, asynchronous requests in flight, and the
    journal of calls. *)
Record Engine : Type := mkEngine {
  graph : list Edge;
  live_streams : list nat;
  playing : list nat;
  frames : list nat;
  next_id : nat;
  next_frame : nat;
  gum_pending : nat;
  reads_pending : nat;
  decodes_pending : nat;
  calls : list Call
}.

Record State : Type := mkState { vars : Vars; dom : Dom; env : Engine }.

(** The page as loaded: no global is set except the two [null]s and
    [isDelayEnabled = false]; every button but "Start Microphone" carries the
    [disabled] attribute. *)
Definition init : State :=
  {| vars := mkVars None None None None None None None false None;
     dom := mkDom false true true true EmptyString false;
     env := mkEngine [] [] [] [] 0 1 0 0 0 [] |}.

(** ** Equality tests *)

Definition node_eqb (a b : Node) : bool :=
  match a, b with
  | MicSrc x, MicSrc y => Nat.eqb x y
  | DelayN x, DelayN y => Nat.eqb x y
  | AnalyserN x, AnalyserN y => Nat.eqb x y
  | BufSrc x, BufSrc y => Nat.eqb x y
  | Destination x, Destination y => Nat.eqb x y
  | _, _ => false
  end.

Definition edge_eqb (e f : Edge) : bool :=
  node_eqb (fst e) (fst f) && node_eqb (snd e) (snd f).

Definition has_edge (g : list Edge) (a b : Node) : bool :=
  existsb (edge_eqb (a, b)) g.

Definition mem (n : nat) (l : list nat) : bool := existsb (Nat.eqb n) l.

Definition remove_id (n : nat) (l : list nat) : list nat :=
  filter (fun m => negb (Nat.eqb n m)) l.

(** ** Field updates *)

Definition upd_vars (f : Vars -> Vars) (s : State) : State :=
  mkState (f (vars s)) (dom s) (env s).
Definition upd_dom (f : Dom -> Dom) (s : State) : State :=
  mkState (vars s) (f (dom s)) (env s).
Definition upd_env (f : Engine -> Engine) (s : State) : State :=
  mkState (vars s) (dom s) (f (env s)).

Definition with_audioContext (x : option nat) (v : Vars) : Vars :=
  mkVars x (micStream v) (micSource v) (delayNode v) (analyserNode v)
    (droppedAudioBuffer v) (droppedAudioSource v) (isDelayEnabled v) (animationId v).
Definition with_micStream (x : option nat) (v : Vars) : Vars :=
  mkVars (audioContext v) x (micSource v) (delayNode v) (analyserNode v)
    (droppedAudioBuffer v) (droppedAudioSource v) (isDelayEnabled v) (animationId v).
Definition with_micSource (x : option nat) (v : Vars) : Vars :=
  mkVars (audioContext v) (micStream v) x (delayNode v) (analyserNode v)
    (droppedAudioBuffer v) (droppedAudioSource v) (isDelayEnabled v) (animationId v).
Definition with_delayNode (x : option nat) (v : Vars) : Vars :=
  mkVars (audioContext v) (micStream v) (micSource v) x (analyserNode v)
    (droppedAudioBuffer v) (droppedAudioSource v) (isDelayEnabled v) (animationId v).
Definition with_analyserNode (x : option nat) (v : Vars) : Vars :=
  mkVars (audioContext v) (micStream v) (micSource v) (delayNode v) x
    (droppedAudioBuffer v) (droppedAudioSource v) (isDelayEnabled v) (animationId v).
Definition with_droppedAudioBuffer (x : option AudioBuffer) (v : Vars) : Vars :=
  mkVars (audioContext v) (micStream v) (micSource v) (delayNode v) (analyserNode v)
    x (droppedAudioSource v) (isDelayEnabled v) (animationId v).
Definition with_droppedAudioSource (x : option nat) (v : Vars) : Vars :=
  mkVars (audioContext v) (micStream v) (micSource v) (delayNode v) (analyserNode v)
    (droppedAudioBuffer v) x (isDelayEnabled v) (animationId v).
Definition with_isDelayEnabled (x : bool) (v : Vars) : Vars :=
  mkVars (audioContext v) (micStream v) (micSource v) (delayNode v) (analyserNode v)
    (droppedAudioBuffer v) (droppedAudioSource v) x (animationId v).
Definition with_animationId (x : option nat) (v : Vars) : Vars :=
  mkVars (audioContext v) (micStream v) (micSource v) (delayNode v) (analyserNode v)
    (droppedAudioBuffer v) (droppedAudioSource v) (isDelayEnabled v) x.

Definition with_stopMicBtn_disabled (x : bool) (d : Dom) : Dom :=
  mkDom (startMicBtn_disabled d) x (toggleDelayBtn_disabled d)
    (playAudioBtn_disabled d) (statusMessage d) (dropZone_dragover d).
Definition with_toggleDelayBtn_disabled (x : bool) (d : Dom) : Dom :=
  mkDom (startMicBtn_disabled d) (stopMicBtn_disabled d) x
    (playAudioBtn_disabled d) (statusMessage d) (dropZone_dragover d).
Definition with_playAudioBtn_disabled (x : bool) (d : Dom) : Dom :=
  mkDom (startMicBtn_disabled d) (stopMicBtn_disabled d) (toggleDelayBtn_disabled d)
    x (statusMessage d) (dropZone_dragover d).
Definition with_statusMessage (x : string) (d : Dom) : Dom :=
  mkDom (startMicBtn_disabled d) (stopMicBtn_disabled d) (toggleDelayBtn_disabled d)
    (playAudioBtn_disabled d) x (dropZone_dragover d).
Definition with_dropZone_dragover (x : bool) (d : Dom) : Dom :=
  mkDom (startMicBtn_disabled d) (stopMicBtn_disabled d) (toggleDelayBtn_disabled d)
    (playAudioBtn_disabled d) (statusMessage d) x.

Definition with_graph (x : list Edge) (e : Engine) : Engine :=
  mkEngine x (live_streams e) (playing e) (frames e) (next_id e) (next_frame e)
    (gum_pending e) (reads_pending e) (decodes_pending e) (calls e).
Definition with_live_streams (x : list nat) (e : Engine) : Engine :=
  mkEngine (graph e) x (playing e) (frames e) (next_id e) (next_frame e)
    (gum_pending e) (reads_pending e) (decodes_pending e) (calls e).
Definition with_playing (x : list nat) (e : Engine) : Engine :=
  mkEngine (graph e) (live_streams e) x (frames e) (next_id e) (next_frame e)
    (gum_pending e) (reads_pending e) (decodes_pending e) (calls e).
Definition with_frames (x : list nat) (e : Engine) : Engine :=
  mkEngine (graph e) (live_streams e) (playing e) x (next_id e) (next_frame e)
    (gum_pending e) (reads_pending e) (decodes_pending e) (calls e).
Definition with_next_id (x : nat) (e : Engine) : Engine :=
  mkEngine (graph e) (live_streams e) (playing e) (frames e) x (next_frame e)
    (gum_pending e) (reads_pending e) (decodes_pending e) (calls e).
Definition with_next_frame (x : nat) (e : Engine) : Engine :=
  mkEngine (graph e) (live_streams e) (playing e) (frames e) (next_id e) x
    (gum_pending e) (reads_pending e) (decodes_pending e) (calls e).
Definition with_gum_pending (x : nat) (e : Engine) : Engine :=
  mkEngine (graph e) (live_streams e) (playing e) (frames e) (next_id e) (next_frame e)
    x (reads_pending e) (decodes_pending e) (calls e).
Definition with_reads_pending (x : nat) (e : Engine) : Engine :=
  mkEngine (graph e) (live_streams e) (playing e) (frames e) (next_id e) (next_frame e)
    (gum_pending e) x (decodes_pending e) (calls e).
Definition with_decodes_pending (x : nat) (e : Engine) : Engine :=
  mkEngine (graph e) (live_streams e) (playing e) (frames e) (next_id e) (next_frame e)
    (gum_pending e) (reads_pending e) x (calls e).
Definition with_calls (x : list Call) (e : Engine) : Engine :=
  mkEngine (graph e) (live_streams e) (playing e) (frames e) (next_id e) (next_frame e)
    (gum_pending e) (reads_pending e) (decodes_pending e) x.

(** ** The handler monad *)

Inductive Err : Type :=
| TypeError          (* a property read or a call on [undefined] *)
| MediaError.        (* the rejection of getUserMedia *)

Inductive Res (A : Type) : Type :=
| Ok (a : A) (s : State)
| Throw (e : Err) (s : State).
Arguments Ok {A} a s.
Arguments Throw {A} e s.

Definition M (A : Type) : Type := State -> Res A.

Definition ret {A} (a : A) : M A := fun s => Ok a s.
Definition bind {A B} (m : M A) (k : A -> M B) : M B :=
  fun s => match m s with
           | Ok a s' => k a s'
           | Throw e s' => Throw e s'
           end.
Definition throw {A} (e : Err) : M A := fun s => Throw e s.
Definition try_catch {A} (m : M A) (h : Err -> M A) : M A :=
  fun s => match m s with
           | Ok a s' => Ok a s'
           | Throw e s' => h e s'
           end.
Definition gets {A} (f : State -> A) : M A := fun s => Ok (f s) s.
Definition modify (f : State -> State) : M unit := fun s => Ok tt (f s).

(** The state a handler leaves, whether it returned or threw. *)
Definition state_of {A} (r : Res A) : State :=
  match r with Ok _ s => s | Throw _ s => s end.

Definition returns {A} (r : Res A) : bool :=
  match r with Ok _ _ => true | Throw _ _ => false end.

Declare Scope js_scope.
Delimit Scope js_scope with js.
Notation "x <- m ;; k" := (bind m (fun x => k))
  (at level 61, m at next level, right associativity) : js_scope.
Notation "m ;; k" := (bind m (fun _ => k))
  (at level 61, right associativity) : js_scope.
Open Scope js_scope.

(** Reading a variable. *)
Definition var {A} (f : Vars -> A) : M A := gets (fun s => f (vars s)).

(** Using the value of a variable as an object: [undefined.x] throws. *)
Definition deref {A} (f : Vars -> option A) : M A :=
  o <- var f ;;
  match o with
  | Some a => ret a
  | None => throw TypeError
  end.

Definition assign (f : Vars -> Vars) : M unit := modify (upd_vars f).
Definition set_dom (f : Dom -> Dom) : M unit := modify (upd_dom f).
Definition set_env (f : Engine -> Engine) : M unit := modify (upd_env f).
Definition set_status (msg : string) : M unit := set_dom (with_statusMessage msg).

Definition when (b : bool) (m : M unit) : M unit := if b then m else ret tt.

(** ** The browser, as far as the script drives it *)

Definition journal (c : Call) : M unit :=
  set_env (fun e => with_calls (calls e ++ [c]) e).

Definition fresh : M nat :=
  n <- gets (fun s => next_id (env s)) ;;
  set_env (with_next_id (S n)) ;;
  ret n.

Definition new_AudioContext : M nat :=
  c <- fresh ;; journal (CNewContext c) ;; ret c.
Definition createMediaStreamSource (stream : nat) : M nat :=
  k <- fresh ;; journal (CCreateSource k stream) ;; ret k.
Definition createDelay : M nat :=
  k <- fresh ;; journal (CCreateDelay k) ;; ret k.
Definition createAnalyser : M nat :=
  k <- fresh ;; journal (CCreateAnalyser k) ;; ret k.
Definition createBufferSource : M nat :=
  k <- fresh ;; journal (CCreateBufferSource k) ;; ret k.

(** [a.connect(b)]: connecting twice to the same input is one connection. *)
Definition add_edge (a b : Node) (g : list Edge) : list Edge :=
  if has_edge g a b then g else g ++ [(a, b)].
Definition connect (a b : Node) : M unit :=
  journal (CConnect a b) ;;
  set_env (fun e => with_graph (add_edge a b (graph e)) e).

(** [a.disconnect()] without argument: every outgoing connection of [a]
    goes. *)
Definition drop_outputs (a : Node) (g : list Edge) : list Edge :=
  filter (fun e => negb (node_eqb (fst e) a)) g.
Definition disconnect (a : Node) : M unit :=
  journal (CDisconnect a) ;;
  set_env (fun e => with_graph (drop_outputs a (graph e)) e).

(** [stream.getTracks().forEach(track => track.stop())] *)
Definition stop_tracks (stream : nat) : M unit :=
  journal (CTrackStop stream) ;;
  set_env (fun e => with_live_streams (remove_id stream (live_streams e)) e).

(** Frame handles are positive, so a handle is truthy. *)
Definition requestAnimationFrame : M nat :=
  id <- gets (fun s => next_frame (env s)) ;;
  set_env (with_next_frame (S id)) ;;
  set_env (fun e => with_frames (frames e ++ [id]) e) ;;
  journal (CRequestFrame id) ;;
  ret id.
Definition cancelAnimationFrame (id : nat) : M unit :=
  journal (CCancelFrame id) ;;
  set_env (fun e => with_frames (remove_id id (frames e)) e).

Definition source_start (k : nat) : M unit :=
  journal (CSourceStart k) ;;
  set_env (fun e => with_playing (playing e ++ [k]) e).
Definition source_stop (k : nat) : M unit :=
  journal (CSourceStop k) ;;
  set_env (fun e => with_playing (remove_id k (playing e)) e).

Definition getUserMedia : M unit :=
  journal CGetUserMedia ;;
  set_env (fun e => with_gum_pending (S (gum_pending e)) e).

(** How the user (or the device) answers the request for the microphone. *)
Inductive Access : Type := Granted | Denied.

(** The awaited promise settles: a stream with live tracks, or a
    rejection, which the [await] rethrows. *)
Definition getUserMedia_settle (a : Access) : M nat :=
  set_env (fun e => with_gum_pending (pred (gum_pending e)) e) ;;
  match a with
  | Granted =>
      st <- fresh ;;
      set_env (fun e => with_live_streams (live_streams e ++ [st]) e) ;;
      ret st
  | Denied => throw MediaError
  end.

Definition readAsArrayBuffer (f : File) : M unit :=
  journal (CReadFile f) ;;
  set_env (fun e => with_reads_pending (S (reads_pending e)) e).
Definition decodeAudioData : M unit :=
  journal CDecode ;;
  set_env (fun e => with_decodes_pending (S (decodes_pending e)) e).

(** JavaScript truthiness of [animationId]: [undefined] and [0] are falsy. *)
Definition truthy (o : option nat) : bool :=
  match o with
  | Some (S _) => true
  | _ => false
  end.

(** ** The script *)

(** [goFullscreen], lines 192-196. *)
Definition goFullscreen : M unit := journal CFullscreen.

(** [if (!audioContext) audioContext = new AudioContext()], lines 217-219
    and 267-269. *)
Definition ensure_context : M unit :=
  c <- var audioContext ;;
  match c with
  | Some _ => ret tt
  | None => c' <- new_AudioContext ;; assign (with_audioContext (Some c'))
  end.

(** The drop listener, lines 206-234, up to [reader.readAsArrayBuffer]. *)
Definition on_drop (files : list File) : M unit :=
  set_dom (with_dropZone_dragover false) ;;
  match files with
  | [] => ret tt
  | file :: _ =>
      if prefix "audio/" (file_type file) then readAsArrayBuffer file
      else set_status "Please drop a valid audio file."
  end.

Definition on_dragover : M unit := set_dom (with_dropZone_dragover true).
Definition on_dragleave : M unit := set_dom (with_dropZone_dragover false).

(** [reader.onload], lines 214-228, up to the call of [decodeAudioData]. *)
Definition reader_onload : M unit :=
  ensure_context ;;
  _ <- deref audioContext ;;
  decodeAudioData.

(** The two callbacks handed to [decodeAudioData], lines 220-227. *)
Definition decode_success (buffer : AudioBuffer) : M unit :=
  assign (with_droppedAudioBuffer (Some buffer)) ;;
  set_status "Audio file loaded." ;;
  set_dom (with_playAudioBtn_disabled false).
Definition decode_error : M unit :=
  set_status "Error decoding audio file.".

(** [drawWaveform], lines 237-261.  The canvas is painted from the
    analyser's samples; painting writes no variable and no control, so only
    the rescheduling and the read of [analyserNode.fftSize] are kept. *)
Definition drawWaveform : M unit :=
  id <- requestAnimationFrame ;;
  assign (with_animationId (Some id)) ;;
  _ <- deref analyserNode ;;
  ret tt.

(** [startMicrophone], lines 264-302.  It is an async function: the part
    before the [await] runs on the click, the rest when the request for the
    microphone settles; the [try] covers both. *)
Definition startMicrophone_catch (_ : Err) : M unit :=
  set_status "Error accessing microphone.".

Definition startMicrophone_call : M unit :=
  try_catch (ensure_context ;; getUserMedia) startMicrophone_catch.

Definition startMicrophone_resume (a : Access) : M unit :=
  try_catch
    (stream <- getUserMedia_settle a ;;
     assign (with_micStream (Some stream)) ;;
     _ <- deref audioContext ;;
     src <- createMediaStreamSource stream ;;
     assign (with_micSource (Some src)) ;;
     _ <- deref audioContext ;;
     d <- createDelay ;;
     assign (with_delayNode (Some d)) ;;
     d' <- deref delayNode ;;
     journal (CSetDelayTime d' 200) ;;
     _ <- deref audioContext ;;
     an <- createAnalyser ;;
     assign (with_analyserNode (Some an)) ;;
     an' <- deref analyserNode ;;
     journal (CSetFftSize an' 2048) ;;
     m <- deref micSource ;;
     a' <- deref analyserNode ;;
     connect (MicSrc m) (AnalyserN a') ;;
     on <- var isDelayEnabled ;;
     (if on then
        m <- deref micSource ;;
        d <- deref delayNode ;;
        connect (MicSrc m) (DelayN d) ;;
        c <- deref audioContext ;;
        connect (DelayN d) (Destination c)
      else
        m <- deref micSource ;;
        c <- deref audioContext ;;
        connect (MicSrc m) (Destination c)) ;;
     set_dom (with_stopMicBtn_disabled false) ;;
     set_dom (with_toggleDelayBtn_disabled false) ;;
     set_status "Microphone started." ;;
     drawWaveform ;;
     goFullscreen)
    startMicrophone_catch.

(** The whole operation when nothing else runs during the [await]. *)
Definition startMicrophone (a : Access) : M unit :=
  startMicrophone_call ;; startMicrophone_resume a.

(** [stopMicrophone], lines 304-314. *)
Definition stopMicrophone : M unit :=
  ms <- var micStream ;;
  match ms with
  | Some st => stop_tracks st
  | None => ret tt
  end ;;
  id <- var animationId ;;
  (if truthy id
   then match id with Some n => cancelAnimationFrame n | None => ret tt end
   else ret tt) ;;
  set_dom (with_stopMicBtn_disabled true) ;;
  set_dom (with_toggleDelayBtn_disabled true) ;;
  set_status "Microphone stopped.".

(** [toggleDelay], lines 317-329. *)
Definition toggleDelay : M unit :=
  on <- var isDelayEnabled ;;
  assign (with_isDelayEnabled (negb on)) ;;
  src <- var micSource ;;
  match src with
  | None => ret tt
  | Some m =>
      disconnect (MicSrc m) ;;
      on <- var isDelayEnabled ;;
      if on then
        d <- deref delayNode ;;
        connect (MicSrc m) (DelayN d) ;;
        c <- deref audioContext ;;
        connect (DelayN d) (Destination c) ;;
        set_status "Delay enabled."
      else
        c <- deref audioContext ;;
        connect (MicSrc m) (Destination c) ;;
        set_status "Delay disabled."
  end.

(** [playDroppedAudio], lines 332-343. *)
Definition playDroppedAudio : M unit :=
  b <- var droppedAudioBuffer ;;
  match b with
  | None => ret tt
  | Some buffer =>
      old <- var droppedAudioSource ;;
      match old with
      | Some k => source_stop k
      | None => ret tt
      end ;;
      _ <- deref audioContext ;;
      n <- createBufferSource ;;
      assign (with_droppedAudioSource (Some n)) ;;
      k <- deref droppedAudioSource ;;
      b' <- var droppedAudioBuffer ;;
      match b' with
      | Some buf => journal (CSetBuffer k buf)
      | None => ret tt
      end ;;
      k <- deref droppedAudioSource ;;
      c <- deref audioContext ;;
      connect (BufSrc k) (Destination c) ;;
      k <- deref droppedAudioSource ;;
      source_start k ;;
      set_status "Playing dropped audio."
  end.

(** ** Events of the page *)

Inductive Event : Type :=
| DragOver
| DragLeave
| DropFiles (files : list File)
| ReaderLoaded
| Decoded (r : option AudioBuffer)
| ClickStart
| MicSettled (a : Access)
| ClickStop
| ClickToggle
| ClickPlay
| Frame (id : nat)
| PlaybackEnded (k : nat).

(** A disabled button fires no click; a callback runs only for a request
    that is in flight; a one-shot player ends only while it sounds. *)
Definition enabled (ev : Event) (s : State) : bool :=
  match ev with
  | DragOver | DragLeave | DropFiles _ => true
  | ReaderLoaded => Nat.ltb 0 (reads_pending (env s))
  | Decoded _ => Nat.ltb 0 (decodes_pending (env s))
  | ClickStart => negb (startMicBtn_disabled (dom s))
  | MicSettled _ => Nat.ltb 0 (gum_pending (env s))
  | ClickStop => negb (stopMicBtn_disabled (dom s))
  | ClickToggle => negb (toggleDelayBtn_disabled (dom s))
  | ClickPlay => negb (playAudioBtn_disabled (dom s))
  | Frame id => mem id (frames (env s))
  | PlaybackEnded k => mem k (playing (env s))
  end.

Definition handle (ev : Event) : M unit :=
  match ev with
  | DragOver => on_dragover
  | DragLeave => on_dragleave
  | DropFiles files => on_drop files
  | ReaderLoaded =>
      set_env (fun e => with_reads_pending (pred (reads_pending e)) e) ;;
      reader_onload
  | Decoded r =>
      set_env (fun e => with_decodes_pending (pred (decodes_pending e)) e) ;;
      match r with
      | Some buffer => decode_success buffer
      | None => decode_error
      end
  | ClickStart => startMicrophone_call
  | MicSettled a => startMicrophone_resume a
  | ClickStop => stopMicrophone
  | ClickToggle => toggleDelay
  | ClickPlay => playDroppedAudio
  | Frame id =>
      set_env (fun e => with_frames (remove_id id (frames e)) e) ;;
      drawWaveform
  | PlaybackEnded k =>
      set_env (fun e => with_playing (remove_id k (playing e)) e)
  end.

(** An uncaught exception ends the handler, not the page: the next event
    finds the state the handler left. *)
Definition step (ev : Event) (s : State) : State := state_of (handle ev s).

Fixpoint exec (evs : list Event) (s : State) : option State :=
  match evs with
  | [] => Some s
  | ev :: rest => if enabled ev s then exec rest (step ev s) else None
  end.

Definition reachable (s : State) : Prop := exists evs, exec evs init = Some s.

(** ** Routes of the audio graph *)

(** [route g a l b]: the signal of [a] reaches [b] through the nodes [l],
    in this order, along connections of [g]. *)
Inductive route (g : list Edge) : Node -> list Node -> Node -> Prop :=
| route_edge a b : In (a, b) g -> route g a [] b
| route_via a m l b : In (a, m) g -> route g m l b -> route g a (m :: l) b.

(** The two routes the script builds for a capture source. *)
Definition direct_route (s : State) (m c : nat) : bool :=
  has_edge (graph (env s)) (MicSrc m) (Destination c).
Definition delayed_route (s : State) (m d c : nat) : bool :=
  has_edge (graph (env s)) (MicSrc m) (DelayN d)
  && has_edge (graph (env s)) (DelayN d) (Destination c).
Definition feeds_analyser (s : State) (m a : nat) : bool :=
  has_edge (graph (env s)) (MicSrc m) (AnalyserN a).

(** The graph after the routing statements (lines 287-291 and 321-327) have
    run on [g] in mode [on]. *)
Definition wired (on : bool) (m d c : nat) (g : list Edge) : list Edge :=
  if on
  then add_edge (DelayN d) (Destination c) (add_edge (MicSrc m) (DelayN d) g)
  else add_edge (MicSrc m) (Destination c) g.

(** ** The invariant of the session *)

Definition node_id (n : Node) : nat :=
  match n with
  | MicSrc k | DelayN k | AnalyserN k | BufSrc k | Destination k => k
  end.

(** The only connections the script ever makes. *)
Definition edge_ok (e : Edge) : bool :=
  match e with
  | (MicSrc _, AnalyserN _) => true
  | (MicSrc _, DelayN _) => true
  | (MicSrc _, Destination _) => true
  | (DelayN _, Destination _) => true
  | (BufSrc _, Destination _) => true
  | _ => false
  end.

Definition edge_below (n : nat) (e : Edge) : Prop := node_id (fst e) < n.

Definition one_player (s : State) : Prop :=
  match playing (env s) with
  | [] => True
  | [k] => droppedAudioSource (vars s) = Some k
  | _ => False
  end.

Record wf (s : State) : Prop := mk_wf {
  wf_src : micSource (vars s) <> None ->
           audioContext (vars s) <> None /\ delayNode (vars s) <> None
           /\ analyserNode (vars s) <> None;
  wf_buf : droppedAudioBuffer (vars s) <> None -> audioContext (vars s) <> None;
  wf_gum : 0 < gum_pending (env s) -> audioContext (vars s) <> None;
  wf_dec : 0 < decodes_pending (env s) -> audioContext (vars s) <> None;
  wf_frames : frames (env s) <> [] -> analyserNode (vars s) <> None;
  wf_src_id : forall k, micSource (vars s) = Some k -> k < next_id (env s);
  wf_delay_id : forall d, delayNode (vars s) = Some d -> d < next_id (env s);
  wf_edges : Forall (fun e => edge_ok e = true) (graph (env s));
  wf_fresh : Forall (edge_below (next_id (env s))) (graph (env s));
  wf_play : one_player s;
  wf_running : stopMicBtn_disabled (dom s) = false -> micSource (vars s) <> None;
  wf_start : startMicBtn_disabled (dom s) = false
}.

(** ** Vocabulary of the properties *)

(** The microphone is active, as [toggleDelay] tests it: a capture source
    exists.  The running microphone (stop control enabled) is a special
    case, see [running_is_active]. *)
Definition mic_active (s : State) : Prop := micSource (vars s) <> None.
Definition mic_running (s : State) : Prop := stopMicBtn_disabled (dom s) = false.

(** No capture stream is held and no animation callback is scheduled. *)
Definition idle_mic (s : State) : Prop :=
  micStream (vars s) = None /\ animationId (vars s) = None
  /\ frames (env s) = [].

(** The microphone was never started: no capture stream was ever granted. *)
Definition never_granted (evs : list Event) : Prop := ~ In (MicSettled Granted) evs.

Definition mode_message (on : bool) : string :=
  if on then "Delay enabled." else "Delay disabled.".

(** The controls after a successful start, as the specification words them. *)
Definition started_controls_per_spec (s : State) : Prop :=
  stopMicBtn_disabled (dom s) = false
  /\ toggleDelayBtn_disabled (dom s) = false
  /\ startMicBtn_disabled (dom s) = true.

(** Toggling without a microphone, as the specification words it: only the
    flag flips, and the new mode is reported in the status text. *)
Definition idle_toggle_per_spec (s s' : State) : Prop :=
  vars s' = with_isDelayEnabled (negb (isDelayEnabled (vars s))) (vars s)
  /\ env s' = env s
  /\ statusMessage (dom s') = mode_message (isDelayEnabled (vars s')).

(** The analyser stays fed: the capture source of [s] is connected to the
    analyser of [s]. *)
Definition analyser_fed (s : State) : bool :=
  match micSource (vars s), analyserNode (vars s) with
  | Some m, Some a => feeds_analyser s m a
  | _, _ => false
  end.

(** A drop of one audio file followed by the end of its read and of its
    decoding. *)
Definition drop_and_decode (files : list File) (r : option AudioBuffer)
  : list Event :=
  [DropFiles files; ReaderLoaded; Decoded r].

(** Start, a number of toggles, stop, and the second start. *)
Definition start_granted : list Event := [ClickStart; MicSettled Granted].
Definition toggles (n : nat) : list Event := repeat ClickToggle n.

(** ** Vocabulary of the further properties *)

Definition is_new_context (c : Call) : bool :=
  match c with
  | CNewContext _ => true
  | _ => false
  end.

(** The contexts the script has asked the browser for, oldest first. *)
Definition contexts_created (s : State) : list Call :=
  filter is_new_context (calls (env s)).

(** One audio context serves the whole page. *)
Definition one_context (s : State) : Prop :=
  match audioContext (vars s) with
  | None => contexts_created s = []
  | Some c => contexts_created s = [CNewContext c]
  end
  /\ forall a c, In (a, Destination c) (graph (env s)) ->
                 audioContext (vars s) = Some c.

(** The play control is usable exactly when a decoded file is held. *)
Definition play_matches_buffer (s : State) : Prop :=
  playAudioBtn_disabled (dom s) = false <-> droppedAudioBuffer (vars s) <> None.

(** Events of the microphone side; the others belong to the dropped file. *)
Definition mic_event (ev : Event) : bool :=
  match ev with
  | ClickStart | MicSettled _ | ClickStop | ClickToggle | Frame _ => true
  | _ => false
  end.

(** What the microphone side owns, and what the file side owns. *)
Definition mic_side (s : State) :=
  (micStream (vars s), micSource (vars s), delayNode (vars s),
   analyserNode (vars s), isDelayEnabled (vars s), animationId (vars s),
   stopMicBtn_disabled (dom s), toggleDelayBtn_disabled (dom s),
   live_streams (env s), frames (env s), gum_pending (env s)).
Definition file_side (s : State) :=
  (droppedAudioBuffer (vars s), droppedAudioSource (vars s),
   playAudioBtn_disabled (dom s), dropZone_dragover (dom s),
   playing (env s), reads_pending (env s), decodes_pending (env s)).

(** The page before the first granted start. *)
Definition not_started (s : State) : Prop :=
  stopMicBtn_disabled (dom s) = true
  /\ toggleDelayBtn_disabled (dom s) = true
  /\ isDelayEnabled (vars s) = false
  /\ micSource (vars s) = None
  /\ live_streams (env s) = []
  /\ forall m x, ~ In (MicSrc m, x) (graph (env s)).

(** One animation callback is scheduled, the one [animationId] names. *)
Definition single_loop (s : State) : Prop :=
  exists id, frames (env s) = [id] /\ animationId (vars s) = Some id /\ 0 < id.

(** The drawing loop runs exactly while the microphone runs. *)
Definition loop_matches_mic (s : State) : Prop :=
  0 < next_frame (env s)
  /\ if stopMicBtn_disabled (dom s) then frames (env s) = [] else single_loop s.

(** No grant of the microphone arrives while it is already running. *)
Fixpoint no_overlap (evs : list Event) (s : State) : bool :=
  match evs with
  | [] => true
  | ev :: rest =>
      match ev with
      | MicSettled Granted =>
          stopMicBtn_disabled (dom s) && no_overlap rest (step ev s)
      | _ => no_overlap rest (step ev s)
      end
  end.

(** A capture stream with live tracks that [micStream] no longer names. *)
Definition orphan_stream (st : nat) (s : State) : Prop :=
  In st (live_streams (env s))
  /\ micStream (vars s) <> Some st
  /\ st < next_id (env s).

Definition streams_known (s : State) : Prop :=
  Forall (fun k => k < next_id (env s)) (live_streams (env s))
  /\ forall k, micStream (vars s) = Some k -> k < next_id (env s).

(** ** The waveform drawn by [drawWaveform] *)

(** The path handed to the canvas (lines 246-260).  Coordinates are
    rationals: samples are bytes, the canvas size is integral, and the
    script divides only by 128, by 2 and by the buffer length, which is the
    analyser's [fftSize], 2048; every intermediate value is then a dyadic
    rational far below 2^53, so the script's double arithmetic is exact. *)
Inductive PathCmd : Type :=
| MoveTo (x y : Q)
| LineTo (x y : Q).

Definition cmd_x (c : PathCmd) : Q :=
  match c with MoveTo x _ | LineTo x _ => x end.
Definition cmd_y (c : PathCmd) : Q :=
  match c with MoveTo _ y | LineTo _ y => y end.
Definition is_line (c : PathCmd) : bool :=
  match c with LineTo _ _ => true | MoveTo _ _ => false end.

Definition Qnat (n : nat) : Q := inject_Z (Z.of_nat n).

(** The body of the [for] loop, from index [i] and abscissa [x] on. *)
Fixpoint plot (sliceWidth height : Q) (i : nat) (x : Q) (dataArray : list nat)
  : list PathCmd :=
  match dataArray with
  | [] => []
  | sample :: rest =>
      let v := (Qnat sample / 128)%Q in
      let y := (v * height / 2)%Q in
      (if Nat.eqb i 0 then MoveTo x y else LineTo x y)
        :: plot sliceWidth height (S i) (x + sliceWidth)%Q rest
  end.

Definition waveform (width height : nat) (dataArray : list nat)
  : list PathCmd :=
  let bufferLength := List.length dataArray in
  let sliceWidth := (Qnat width / Qnat bufferLength)%Q in
  plot sliceWidth (Qnat height) 0 0%Q dataArray
  ++ [LineTo (Qnat width) (Qnat height / 2)%Q].

(** ** The routing of the whole page *)

(** Some capture source feeds a destination directly; some capture source
    feeds one through a delay node. *)
Definition some_direct_route (s : State) : bool :=
  existsb (fun e => match e with
                    | (MicSrc _, Destination _) => true
                    | _ => false
                    end) (graph (env s)).
Definition some_delayed_route (s : State) : bool :=
  existsb (fun e => match e with
                    | (MicSrc _, DelayN d) =>
                        existsb (fun f => match f with
                                          | (DelayN d', Destination _) =>
                                              Nat.eqb d d'
                                          | _ => false
                                          end) (graph (env s))
                    | _ => false
                    end) (graph (env s)).

(** One routing mode at a time between capture and destination, as the
    specification words it for the page. *)
Definition one_routing_mode_per_spec (s : State) : Prop :=
  xorb (some_direct_route s) (some_delayed_route s) = true.

(** ** Handlers with their [try] opened *)

(** The statements inside the [try] of [startMicrophone], before and after
    the [await]; [startMicrophone_call] and [startMicrophone_resume] are
    these under [try_catch], see [handle_opens_try]. *)
Definition startMicrophone_call_body : M unit :=
  ensure_context ;; getUserMedia.

Definition startMicrophone_resume_body (a : Access) : M unit :=
  stream <- getUserMedia_settle a ;;
  assign (with_micStream (Some stream)) ;;
  _ <- deref audioContext ;;
  src <- createMediaStreamSource stream ;;
  assign (with_micSource (Some src)) ;;
  _ <- deref audioContext ;;
  d <- createDelay ;;
  assign (with_delayNode (Some d)) ;;
  d' <- deref delayNode ;;
  journal (CSetDelayTime d' 200) ;;
  _ <- deref audioContext ;;
  an <- createAnalyser ;;
  assign (with_analyserNode (Some an)) ;;
  an' <- deref analyserNode ;;
  journal (CSetFftSize an' 2048) ;;
  m <- deref micSource ;;
  a' <- deref analyserNode ;;
  connect (MicSrc m) (AnalyserN a') ;;
  on <- var isDelayEnabled ;;
  (if on then
     m <- deref micSource ;;
     d <- deref delayNode ;;
     connect (MicSrc m) (DelayN d) ;;
     c <- deref audioContext ;;
     connect (DelayN d) (Destination c)
   else
     m <- deref micSource ;;
     c <- deref audioContext ;;
     connect (MicSrc m) (Destination c)) ;;
  set_dom (with_stopMicBtn_disabled false) ;;
  set_dom (with_toggleDelayBtn_disabled false) ;;
  set_status "Microphone started." ;;
  drawWaveform ;;
  goFullscreen.

(** What an event runs before any [catch] applies. *)
Definition handle_body (ev : Event) : M unit :=
  match ev with
  | ClickStart => startMicrophone_call_body
  | MicSettled a => startMicrophone_resume_body a
  | _ => handle ev
  end.

Definition has_try (ev : Event) : bool :=
  match ev with
  | ClickStart | MicSettled _ => true
  | _ => false
  end.

(** A capture source of an earlier start: created, and no longer the one
    [micSource] names. *)
Definition earlier_source (m : nat) (s : State) : Prop :=
  micSource (vars s) <> Some m /\ m < next_id (env s).

(** * Proofs *)

(** ** Lists and graphs *)

Lemma node_eqb_eq a b : node_eqb a b = true <-> a = b.
Proof.
  destruct a, b; simpl; rewrite ?Nat.eqb_eq; split; intro H;
    try discriminate; try (inversion H; subst); auto.
Qed.

Lemma node_eqb_refl a : node_eqb a a = true.
Proof. apply node_eqb_eq; reflexivity. Qed.

Lemma node_eqb_neq a b : node_eqb a b = false <-> a <> b.
Proof.
  rewrite <- node_eqb_eq. destruct (node_eqb a b); split; intro H;
    congruence || (exfalso; apply H; reflexivity).
Qed.

Lemma has_edge_In g a b : has_edge g a b = true <-> In (a, b) g.
Proof.
  unfold has_edge. rewrite existsb_exists. split.
  - intros [[x y] [Hin He]]. unfold edge_eqb in He. simpl in He.
    apply andb_true_iff in He. destruct He as [H1 H2].
    apply node_eqb_eq in H1. apply node_eqb_eq in H2. subst. exact Hin.
  - intro Hin. exists (a, b). split; [exact Hin|].
    unfold edge_eqb. simpl. rewrite !node_eqb_refl. reflexivity.
Qed.

Lemma has_edge_false g a b : has_edge g a b = false <-> ~ In (a, b) g.
Proof.
  rewrite <- has_edge_In. destruct (has_edge g a b); split; intro H;
    congruence || (exfalso; apply H; reflexivity).
Qed.

Lemma In_add_edge e a b g : In e (add_edge a b g) <-> e = (a, b) \/ In e g.
Proof.
  unfold add_edge. destruct (has_edge g a b) eqn:E.
  - apply has_edge_In in E. split; [auto|]. intros [->|H]; assumption.
  - rewrite in_app_iff. simpl. split; intros H.
    + destruct H as [H|[H|[]]]; auto.
    + destruct H as [H|H]; auto.
Qed.

Lemma In_drop_outputs e a g : In e (drop_outputs a g) <-> In e g /\ fst e <> a.
Proof.
  unfold drop_outputs. rewrite filter_In, negb_true_iff, node_eqb_neq.
  reflexivity.
Qed.

Lemma Forall_add_edge (P : Edge -> Prop) a b g :
  P (a, b) -> Forall P g -> Forall P (add_edge a b g).
Proof.
  intros Hab Hg. apply Forall_forall. intros e He.
  apply In_add_edge in He. destruct He as [->|He]; [exact Hab|].
  rewrite Forall_forall in Hg. auto.
Qed.

Lemma Forall_drop_outputs (P : Edge -> Prop) a g :
  Forall P g -> Forall P (drop_outputs a g).
Proof.
  intros Hg. apply Forall_forall. intros e He.
  apply In_drop_outputs in He. rewrite Forall_forall in Hg. apply Hg, He.
Qed.

Lemma edge_below_mono n m g :
  n <= m -> Forall (edge_below n) g -> Forall (edge_below m) g.
Proof.
  intros Hle. apply Forall_impl. unfold edge_below. intros e H. lia.
Qed.

Lemma remove_id_single k : remove_id k [k] = [].
Proof. unfold remove_id. simpl. rewrite Nat.eqb_refl. reflexivity. Qed.

Lemma mem_nonempty n l : mem n l = true -> l <> [].
Proof. destruct l; simpl; [discriminate | intros _ H; discriminate]. Qed.

Lemma remove_id_nonempty n l : remove_id n l <> [] -> l <> [].
Proof. destruct l; simpl; [auto | intros _ H; discriminate]. Qed.

(** A fresh capture source has no connection yet. *)
Lemma fresh_no_edge g n a b :
  Forall (edge_below n) g -> n <= node_id a -> ~ In (a, b) g.
Proof.
  intros Hg Hle Hin. rewrite Forall_forall in Hg.
  specialize (Hg _ Hin). unfold edge_below in Hg. simpl in Hg. lia.
Qed.

(** The destination and the analysers have no outgoing connection. *)
Lemma no_edge_from_destination g c b :
  Forall (fun e => edge_ok e = true) g -> ~ In (Destination c, b) g.
Proof.
  intros Hg Hin. rewrite Forall_forall in Hg. specialize (Hg _ Hin).
  destruct b; discriminate.
Qed.

Lemma delay_edge_to_destination g d b :
  Forall (fun e => edge_ok e = true) g -> In (DelayN d, b) g ->
  exists c, b = Destination c.
Proof.
  intros Hg Hin. rewrite Forall_forall in Hg. specialize (Hg _ Hin).
  destruct b; try discriminate. eauto.
Qed.

Lemma no_route_from_destination g c l b :
  Forall (fun e => edge_ok e = true) g -> ~ route g (Destination c) l b.
Proof.
  intros Hg Hr. inversion Hr; subst;
    eapply no_edge_from_destination; eauto.
Qed.

(** ** Running the handlers symbolically *)

Ltac js :=
  cbv [step handle state_of returns
       on_dragover on_dragleave on_drop reader_onload decode_success
       decode_error drawWaveform startMicrophone_catch startMicrophone_call
       startMicrophone_resume startMicrophone stopMicrophone toggleDelay
       playDroppedAudio goFullscreen ensure_context
       journal fresh new_AudioContext createMediaStreamSource createDelay
       createAnalyser createBufferSource connect disconnect stop_tracks
       requestAnimationFrame cancelAnimationFrame source_start source_stop
       getUserMedia getUserMedia_settle readAsArrayBuffer decodeAudioData
       negb truthy ret bind throw try_catch gets modify var deref assign set_dom
       set_env set_status when upd_vars upd_dom upd_env
       with_audioContext with_micStream with_micSource with_delayNode
       with_analyserNode with_droppedAudioBuffer with_droppedAudioSource
       with_isDelayEnabled with_animationId
       with_stopMicBtn_disabled with_toggleDelayBtn_disabled
       with_playAudioBtn_disabled with_statusMessage with_dropZone_dragover
       with_graph with_live_streams with_playing with_frames with_next_id
       with_next_frame with_gum_pending with_reads_pending
       with_decodes_pending with_calls
       vars dom env file_type file_name
       audioContext micStream micSource delayNode analyserNode
       droppedAudioBuffer droppedAudioSource isDelayEnabled animationId
       startMicBtn_disabled stopMicBtn_disabled toggleDelayBtn_disabled
       playAudioBtn_disabled statusMessage dropZone_dragover
       graph live_streams playing frames next_id next_frame gum_pending
       reads_pending decodes_pending calls].

(** Case analysis on every variable the handler branches on. *)
Ltac branch :=
  repeat (match goal with
          | |- context [match ?x with _ => _ end] => is_var x; destruct x
          | |- context [prefix ?a ?b] => destruct (prefix a b) eqn:?
          end; js).

Ltac open_state s :=
  destruct s as [[ac ms src dn an buf bsrc on aid]
                 [b1 b2 b3 b4 st dz]
                 [g live pl fr nid nfr gp rp dp cl]].

Ltac some_none :=
  match goal with
  | H : ?x <> ?x |- _ => exfalso; apply H; reflexivity
  | H : None <> None -> _ |- _ => clear H
  | H : Some _ <> None -> _ |- _ =>
      let K := fresh in
      assert (K : forall (A : Type) (a : A), Some a <> None) by discriminate;
      specialize (H (K _ _)); clear K
  end.

Ltac graph_inv :=
  repeat (apply Forall_add_edge || apply Forall_drop_outputs);
  try reflexivity; try (unfold edge_below; simpl; lia);
  try assumption;
  try (match goal with
       | H : forall k, Some ?n = Some k -> k < _ |- edge_below _ (?a, _) =>
           unify (node_id a) n;
           unfold edge_below; simpl; specialize (H n eq_refl); lia
       end);
  try (eapply edge_below_mono; [|eassumption]; lia).

Lemma wf_init : wf init.
Proof.
  constructor; simpl; try (intro H; exfalso; (apply H; reflexivity) || lia);
    try discriminate; try constructor.
Qed.

Lemma one_player_stop_start (pl : list nat) (old : option nat) (n : nat) :
  match pl with [] => True | [k] => old = Some k | _ => False end ->
  match old with Some k => remove_id k pl | None => pl end ++ [n] = [n].
Proof.
  destruct pl as [|x [|y pl]]; intros H; try contradiction.
  - destruct old; reflexivity.
  - subst old. rewrite remove_id_single. reflexivity.
Qed.

Lemma one_player_remove (pl : list nat) (old : option nat) (k : nat) :
  match pl with [] => True | [k] => old = Some k | _ => False end ->
  match remove_id k pl with [] => True | [k] => old = Some k | _ => False end.
Proof.
  destruct pl as [|x [|y pl]]; intros H; try contradiction.
  - exact I.
  - unfold remove_id. simpl. destruct (Nat.eqb k x); simpl; auto.
Qed.

(** Every event keeps the invariant, also when its handler throws. *)
Lemma wf_step ev s : wf s -> enabled ev s = true -> wf (step ev s).
Proof.
  intros [H1 H2 H3 H4 H5 Hs Hd H6 H7 H8 Hr Hst] En. open_state s.
  unfold one_player in *. simpl in *.
  destruct ev; simpl in En; js.
  all: branch.
  all: constructor; unfold one_player; simpl; intros.
  all: repeat some_none.
  all: try (repeat split; congruence).
  all: try tauto.
  all: try graph_inv.
  all: try (apply Nat.ltb_lt in En).
  all: try (match goal with H : _ -> ?G |- ?G => apply H; (lia || congruence) end).
  all: try (match goal with
            | H : forall k, ?x = Some k -> k < _, E : ?x = Some ?n |- ?n < _ =>
                specialize (H n E); lia
            | E : Some _ = Some _ |- _ < _ => inversion E; subst; lia
            end).
  all: try (apply mem_nonempty in En).
  all: try (match goal with H : _ -> ?G |- ?G => apply H; assumption end).
  all: try (exfalso; apply H5; assumption).
  all: try (rewrite one_player_stop_start with (old := Some n) by assumption;
            reflexivity).
  all: try (rewrite one_player_stop_start with (old := None) by assumption;
            reflexivity).
  all: try (apply one_player_remove; assumption).
  all: apply H5; eapply remove_id_nonempty; eassumption.
Qed.

Lemma exec_wf evs : forall s s', wf s -> exec evs s = Some s' -> wf s'.
Proof.
  induction evs as [|ev evs IH]; simpl; intros s s' Hwf Hex.
  - inversion Hex; subst; exact Hwf.
  - destruct (enabled ev s) eqn:En; [|discriminate].
    eapply IH; [|exact Hex]. apply wf_step; assumption.
Qed.

Lemma reachable_wf s : reachable s -> wf s.
Proof. intros [evs H]. eapply exec_wf; [apply wf_init | exact H]. Qed.

Lemma exec_app evs1 : forall evs2 s,
  exec (evs1 ++ evs2) s =
  match exec evs1 s with Some s' => exec evs2 s' | None => None end.
Proof.
  induction evs1 as [|ev evs1 IH]; simpl; intros evs2 s; [reflexivity|].
  destruct (enabled ev s); [apply IH | reflexivity].
Qed.

Lemma reachable_step ev s :
  reachable s -> enabled ev s = true -> reachable (step ev s).
Proof.
  intros [evs H] En. exists (evs ++ [ev]).
  rewrite exec_app, H. simpl. rewrite En. reflexivity.
Qed.

(** On a reachable state no handler ends in an uncaught exception. *)
Lemma handlers_return ev s :
  wf s -> enabled ev s = true -> returns (handle ev s) = true.
Proof.
  intros [H1 H2 H3 H4 H5 Hs Hd H6 H7 H8 Hr Hst] En. open_state s.
  simpl in *.
  destruct ev; simpl in En; js; branch; try reflexivity.
  all: try (apply Nat.ltb_lt in En).
  all: try (apply mem_nonempty in En).
  all: exfalso.
  all: try (apply H3; [lia | reflexivity]).
  all: try (apply H5; [assumption | reflexivity]).
  all: try (apply H2; [discriminate | reflexivity]).
  all: try (destruct H1 as [Ha [Hb Hc]]; [discriminate|];
            (apply Ha; reflexivity) || (apply Hb; reflexivity)
            || (apply Hc; reflexivity)).
Qed.


Lemma running_is_active s : reachable s -> mic_running s -> mic_active s.
Proof. intros Hr. apply wf_running, reachable_wf, Hr. Qed.

(** ** Routes from a capture source *)

Section Routes.
Variable g : list Edge.
Hypothesis g_ok : Forall (fun e => edge_ok e = true) g.

Lemma no_route_from_analyser a l b : ~ route g (AnalyserN a) l b.
Proof.
  intros Hr. rewrite Forall_forall in g_ok.
  inversion Hr; subst;
    match goal with H : In _ g |- _ => apply g_ok in H; discriminate end.
Qed.

Lemma route_from_delay d l c :
  route g (DelayN d) l (Destination c) -> l = [].
Proof.
  intros Hr. inversion Hr; subst; [reflexivity|].
  exfalso.
  match goal with H : In (DelayN d, _) g |- _ =>
    destruct (delay_edge_to_destination _ _ _ g_ok H) as [c' ->] end.
  eapply no_route_from_destination; eauto.
Qed.

(** When the source feeds, besides analysers, only the destination, the
    direct route is the only one. *)
Lemma only_direct m c :
  In (MicSrc m, Destination c) g ->
  (forall x, In (MicSrc m, x) g ->
             x = Destination c \/ exists a, x = AnalyserN a) ->
  forall l, route g (MicSrc m) l (Destination c) <-> l = [].
Proof.
  intros Hin Hout l. split.
  - intros Hr. inversion Hr; subst; [reflexivity|]. exfalso.
    match goal with H : In (MicSrc m, _) g |- _ =>
      destruct (Hout _ H) as [->|[a ->]] end.
    + eapply no_route_from_destination; eauto.
    + eapply no_route_from_analyser; eauto.
  - intros ->. constructor. exact Hin.
Qed.

(** When the source feeds, besides analysers, only the delay, the route
    through the delay is the only one. *)
Lemma only_delayed m d c :
  In (MicSrc m, DelayN d) g -> In (DelayN d, Destination c) g ->
  (forall x, In (MicSrc m, x) g ->
             x = DelayN d \/ exists a, x = AnalyserN a) ->
  forall l, route g (MicSrc m) l (Destination c) <-> l = [DelayN d].
Proof.
  intros Hin1 Hin2 Hout l. split.
  - intros Hr. inversion Hr; subst.
    + match goal with H : In (MicSrc m, _) g |- _ =>
        destruct (Hout _ H) as [E|[a E]]; discriminate end.
    + match goal with H : In (MicSrc m, _) g |- _ =>
        destruct (Hout _ H) as [->|[a ->]] end.
      * f_equal. eapply route_from_delay; eauto.
      * exfalso. eapply no_route_from_analyser; eauto.
  - intros ->. apply route_via; [exact Hin1|]. constructor. exact Hin2.
Qed.
End Routes.

(** The routing statements leave one route, whatever analysers the source
    feeds besides. *)
Lemma wired_routes on m d c g :
  Forall (fun e => edge_ok e = true) g ->
  (forall x, In (MicSrc m, x) g -> exists a, x = AnalyserN a) ->
  Forall (fun e => edge_ok e = true) (wired on m d c g)
  /\ has_edge (wired on m d c g) (MicSrc m) (Destination c) = negb on
  /\ has_edge (wired on m d c g) (MicSrc m) (DelayN d)
     && has_edge (wired on m d c g) (DelayN d) (Destination c) = on
  /\ (forall l, route (wired on m d c g) (MicSrc m) l (Destination c) <->
                l = if on then [DelayN d] else []).
Proof.
  intros Hok Hout. unfold wired. destruct on.
  - set (g' := add_edge (DelayN d) (Destination c)
                 (add_edge (MicSrc m) (DelayN d) g)).
    assert (Hin1 : In (MicSrc m, DelayN d) g')
      by (apply In_add_edge; right; apply In_add_edge; auto).
    assert (Hin2 : In (DelayN d, Destination c) g')
      by (apply In_add_edge; auto).
    assert (Hout' : forall x, In (MicSrc m, x) g' ->
                              x = DelayN d \/ exists a, x = AnalyserN a).
    { intros x Hx. apply In_add_edge in Hx. destruct Hx as [E|Hx];
        [discriminate|].
      apply In_add_edge in Hx. destruct Hx as [E|Hx]; [left; congruence|].
      right. auto. }
    assert (Hok' : Forall (fun e => edge_ok e = true) g')
      by (unfold g'; graph_inv).
    split; [exact Hok'|]. split; [|split].
    + apply has_edge_false. intros Hx.
      destruct (Hout' _ Hx) as [E|[a E]]; discriminate.
    + apply has_edge_In in Hin1. apply has_edge_In in Hin2.
      rewrite Hin1, Hin2. reflexivity.
    + apply only_delayed; assumption.
  - set (g' := add_edge (MicSrc m) (Destination c) g).
    assert (Hin : In (MicSrc m, Destination c) g')
      by (apply In_add_edge; auto).
    assert (Hout' : forall x, In (MicSrc m, x) g' ->
                              x = Destination c \/ exists a, x = AnalyserN a).
    { intros x Hx. apply In_add_edge in Hx. destruct Hx as [E|Hx];
        [left; congruence|]. right. auto. }
    assert (Hok' : Forall (fun e => edge_ok e = true) g')
      by (unfold g'; graph_inv).
    split; [exact Hok'|]. split; [|split].
    + apply has_edge_In. exact Hin.
    + apply andb_false_iff. left. apply has_edge_false. intros Hx.
      destruct (Hout' _ Hx) as [E|[a E]]; discriminate.
    + apply only_direct; assumption.
Qed.

(** What [toggleDelay] does when a capture source exists. *)
Lemma toggleDelay_active s m c d :
  micSource (vars s) = Some m -> audioContext (vars s) = Some c ->
  delayNode (vars s) = Some d ->
  let on := negb (isDelayEnabled (vars s)) in
  toggleDelay s =
  Ok tt (mkState
           (with_isDelayEnabled on (vars s))
           (with_statusMessage (mode_message on) (dom s))
           (with_calls
              (calls (env s) ++ CDisconnect (MicSrc m) ::
                 (if on
                  then [CConnect (MicSrc m) (DelayN d);
                        CConnect (DelayN d) (Destination c)]
                  else [CConnect (MicSrc m) (Destination c)]))
              (with_graph
                 (wired on m d c (drop_outputs (MicSrc m) (graph (env s))))
                 (env s)))).
Proof.
  open_state s. simpl. intros -> -> ->. js. destruct on; js;
    rewrite <- ?app_assoc; reflexivity.
Qed.

Lemma toggleDelay_idle s :
  micSource (vars s) = None ->
  toggleDelay s =
  Ok tt (upd_vars (with_isDelayEnabled (negb (isDelayEnabled (vars s)))) s).
Proof. open_state s. simpl. intros ->. js. destruct on; reflexivity. Qed.

Lemma wf_active s m :
  wf s -> micSource (vars s) = Some m ->
  exists c d a, audioContext (vars s) = Some c /\ delayNode (vars s) = Some d
                /\ analyserNode (vars s) = Some a.
Proof.
  intros Hwf Hm. destruct (wf_src s Hwf) as [Hc [Hd Ha]]; [congruence|].
  destruct (audioContext (vars s)) as [c|]; [|congruence].
  destruct (delayNode (vars s)) as [d|]; [|congruence].
  destruct (analyserNode (vars s)) as [a|]; [|congruence].
  exists c, d, a. repeat split.
Qed.

Lemma no_output_after_disconnect a g x :
  In (a, x) (drop_outputs a g) -> exists k, x = AnalyserN k.
Proof. intros H. apply In_drop_outputs in H. simpl in H. tauto. Qed.

(** C1, as the script has it.  In every reachable state in which a
    capture source exists (so in particular while the microphone runs),
    [toggleDelay] returns and leaves exactly one route from the current
    capture source, the one [micSource] names, to the destination: through
    the delay node when the new mode is "delay enabled", direct otherwise;
    never both and never none. *)
Theorem toggleDelay_exactly_one_route s m :
  reachable s -> micSource (vars s) = Some m ->
  exists s' c d,
    toggleDelay s = Ok tt s'
    /\ micSource (vars s') = Some m
    /\ audioContext (vars s') = Some c
    /\ delayNode (vars s') = Some d
    /\ isDelayEnabled (vars s') = negb (isDelayEnabled (vars s))
    /\ delayed_route s' m d c = isDelayEnabled (vars s')
    /\ direct_route s' m c = negb (isDelayEnabled (vars s'))
    /\ xorb (direct_route s' m c) (delayed_route s' m d c) = true
    /\ (forall l, route (graph (env s')) (MicSrc m) l (Destination c) <->
                  l = if isDelayEnabled (vars s') then [DelayN d] else []).
Proof.
  intros Hr Hm. pose proof (reachable_wf s Hr) as Hwf.
  destruct (wf_active s m Hwf Hm) as (c & d & a & Hc & Hd & Ha).
  pose proof (toggleDelay_active s m c d Hm Hc Hd) as Ht.
  destruct (wired_routes (negb (isDelayEnabled (vars s))) m d c
              (drop_outputs (MicSrc m) (graph (env s))))
    as (_ & Hdir & Hdel & Hroute).
  { apply Forall_drop_outputs, wf_edges, Hwf. }
  { apply no_output_after_disconnect. }
  eexists. exists c, d. split; [exact Ht|].
  unfold direct_route, delayed_route.
  open_state s. simpl in *. subst.
  rewrite Hdir, Hdel.
  split; [reflexivity|]. split; [reflexivity|]. split; [reflexivity|].
  split; [reflexivity|]. split; [reflexivity|]. split; [reflexivity|].
  split; [destruct on; reflexivity | exact Hroute].
Qed.

Lemma toggleDelay_exactly_one_route_witness :
  reachable (step (MicSettled Granted) (step ClickStart init))
  /\ exists s' c d,
       toggleDelay (step (MicSettled Granted) (step ClickStart init)) = Ok tt s'
       /\ micSource (vars s') = Some 2
       /\ audioContext (vars s') = Some c
       /\ delayNode (vars s') = Some d
       /\ xorb (direct_route s' 2 c) (delayed_route s' 2 d c) = true.
Proof.
  assert (R : reachable (step (MicSettled Granted) (step ClickStart init)))
    by (exists [ClickStart; MicSettled Granted]; reflexivity).
  split; [exact R|].
  destruct (toggleDelay_exactly_one_route _ 2 R eq_refl)
    as (s' & c & d & H1 & H2 & H3 & H4 & _ & _ & _ & H8 & _).
  exists s', c, d. repeat split; assumption.
Defined.

(** C1 as worded fails for the page.  Start the microphone twice (the
    start control is still enabled) and toggle: the capture source of the
    first start, whose stream is still live, keeps its direct connection
    to the destination while the current one goes through the delay, so
    both routing modes are active at once. *)
Lemma two_sources_two_routes :
  exists s s',
    exec (start_granted ++ start_granted) init = Some s
    /\ mic_running s
    /\ mic_active s
    /\ exec [ClickToggle] s = Some s'
    /\ toggleDelay s = Ok tt s'
    /\ In (CCreateSource 2 1) (calls (env s'))
    /\ In 1 (live_streams (env s'))
    /\ direct_route s' 2 0 = true
    /\ micSource (vars s') = Some 6
    /\ delayed_route s' 6 7 0 = true
    /\ ~ one_routing_mode_per_spec s'.
Proof.
  eexists. eexists.
  split; [vm_compute; reflexivity|].
  split; [reflexivity|].
  split; [discriminate|].
  split; [vm_compute; reflexivity|].
  split; [vm_compute; reflexivity|].
  split; [vm_compute; tauto|].
  split; [vm_compute; tauto|].
  split; [vm_compute; reflexivity|].
  split; [reflexivity|].
  split; [vm_compute; reflexivity|].
  unfold one_routing_mode_per_spec. vm_compute. discriminate.
Qed.

(** ** Starting the microphone *)

Ltac run_events :=
  cbv [exec enabled start_granted drop_and_decode Nat.ltb Nat.leb]; js.

(** A granted start, from any state of the session. *)
Lemma start_granted_spec s :
  startMicBtn_disabled (dom s) = false ->
  exists s' m c d a,
    exec start_granted s = Some s'
    /\ startMicrophone Granted s = Ok tt s'
    /\ micSource (vars s') = Some m
    /\ audioContext (vars s') = Some c
    /\ delayNode (vars s') = Some d
    /\ analyserNode (vars s') = Some a
    /\ (forall c0, audioContext (vars s) = Some c0 -> c = c0)
    /\ isDelayEnabled (vars s') = isDelayEnabled (vars s)
    /\ dom s' = with_statusMessage "Microphone started."
                  (with_toggleDelayBtn_disabled false
                     (with_stopMicBtn_disabled false (dom s)))
    /\ graph (env s') =
       wired (isDelayEnabled (vars s)) m d c
         (add_edge (MicSrc m) (AnalyserN a) (graph (env s)))
    /\ next_id (env s) <= m.
Proof.
  open_state s. simpl. intros ->.
  destruct ac as [c|]; destruct on.
  all: eexists; eexists; eexists; eexists; eexists.
  all: split; [run_events; reflexivity|].
  all: split; [js; reflexivity|].
  all: simpl; unfold wired.
  all: repeat (split; [reflexivity|]).
  all: try (split; [intros c0 E; inversion E; reflexivity|]).
  all: try (split; [intros c0 E; discriminate|]).
  all: repeat (split; [reflexivity|]).
  all: lia.
Qed.

(** The second half alone, for a request that settles after other events. *)
Lemma resume_denied s :
  startMicrophone_resume Denied s =
  Ok tt (mkState (vars s)
           (with_statusMessage "Error accessing microphone." (dom s))
           (with_gum_pending (pred (gum_pending (env s))) (env s))).
Proof. open_state s. js. reflexivity. Qed.

Lemma toggleDelay_drops_analyser s m :
  reachable s -> micSource (vars s) = Some m ->
  forall a, feeds_analyser (state_of (toggleDelay s)) m a = false.
Proof.
  intros Hr Hm a. pose proof (reachable_wf s Hr) as Hwf.
  destruct (wf_active s m Hwf Hm) as (c & d & a' & Hc & Hd & Ha).
  rewrite (toggleDelay_active s m c d Hm Hc Hd).
  unfold feeds_analyser, wired. simpl.
  apply has_edge_false. intros Hin.
  destruct (negb (isDelayEnabled (vars s)));
    repeat (apply In_add_edge in Hin; destruct Hin as [E|Hin];
            [discriminate|]);
    apply In_drop_outputs in Hin; simpl in Hin; tauto.
Qed.

(** C2 (the script departs from it).  Start the microphone from the loaded
    page and click "Toggle Delay" once: the microphone still runs, the
    capture source and the analyser are the ones created by the start, the
    connection between them existed before the click and is gone after
    it. *)
Theorem toggleDelay_severs_analyser :
  exists s1 s2,
    exec start_granted init = Some s1
    /\ mic_running s1
    /\ analyser_fed s1 = true
    /\ exec [ClickToggle] s1 = Some s2
    /\ mic_running s2
    /\ micSource (vars s2) = micSource (vars s1)
    /\ analyserNode (vars s2) = analyserNode (vars s1)
    /\ analyser_fed s2 = false
    /\ calls (env s2) =
       calls (env s1) ++ [CDisconnect (MicSrc 2);
                          CConnect (MicSrc 2) (DelayN 3);
                          CConnect (DelayN 3) (Destination 0)].
Proof.
  eexists. eexists.
  split; [vm_compute; reflexivity|].
  split; [reflexivity|].
  split; [reflexivity|].
  split; [vm_compute; reflexivity|].
  repeat split.
Qed.

(** C3, as the script has it.  A granted start returns, enables the "stop"
    and "toggle delay" controls and reports "Microphone started."; the
    start control is left as it was, which is enabled, in every reachable
    state. *)
Theorem startMicrophone_granted_controls s :
  reachable s ->
  exists s',
    startMicrophone Granted s = Ok tt s'
    /\ exec start_granted s = Some s'
    /\ stopMicBtn_disabled (dom s') = false
    /\ toggleDelayBtn_disabled (dom s') = false
    /\ startMicBtn_disabled (dom s') = startMicBtn_disabled (dom s)
    /\ startMicBtn_disabled (dom s') = false
    /\ playAudioBtn_disabled (dom s') = playAudioBtn_disabled (dom s)
    /\ statusMessage (dom s') = "Microphone started.".
Proof.
  intros Hr. pose proof (wf_start s (reachable_wf s Hr)) as Hst.
  destruct (start_granted_spec s Hst)
    as (s' & m & c & d & a & Hex & Hrun & _ & _ & _ & _ & _ & _ & Hdom & _).
  exists s'. split; [exact Hrun|]. split; [exact Hex|].
  rewrite Hdom. simpl. rewrite Hst. repeat split.
Qed.

Lemma startMicrophone_granted_controls_witness :
  reachable init
  /\ exists s',
       startMicrophone Granted init = Ok tt s'
       /\ stopMicBtn_disabled (dom s') = false
       /\ toggleDelayBtn_disabled (dom s') = false
       /\ startMicBtn_disabled (dom s') = false.
Proof.
  assert (R : reachable init) by (exists []; reflexivity).
  split; [exact R|].
  destruct (startMicrophone_granted_controls init R)
    as (s' & H1 & _ & H3 & H4 & _ & H6 & _).
  exists s'. repeat split; assumption.
Defined.

(** C3 as worded fails on the loaded page: after a granted start the start
    control is still enabled. *)
Lemma start_control_not_disabled :
  returns (startMicrophone Granted init) = true
  /\ ~ started_controls_per_spec (state_of (startMicrophone Granted init)).
Proof.
  split; [reflexivity|]. intros (_ & _ & H). vm_compute in H. discriminate.
Qed.

(** C4.  A denied start returns; the status text reads "Error accessing
    microphone." and every control keeps the state it had before the call,
    so "stop" and "toggle delay", disabled before, are disabled after.  The
    same holds when the denial arrives after other events. *)
Theorem startMicrophone_denied_controls s :
  exists s',
    startMicrophone Denied s = Ok tt s'
    /\ statusMessage (dom s') = "Error accessing microphone."
    /\ startMicBtn_disabled (dom s') = startMicBtn_disabled (dom s)
    /\ stopMicBtn_disabled (dom s') = stopMicBtn_disabled (dom s)
    /\ toggleDelayBtn_disabled (dom s') = toggleDelayBtn_disabled (dom s)
    /\ playAudioBtn_disabled (dom s') = playAudioBtn_disabled (dom s)
    /\ (stopMicBtn_disabled (dom s) = true ->
        stopMicBtn_disabled (dom s') = true)
    /\ (toggleDelayBtn_disabled (dom s) = true ->
        toggleDelayBtn_disabled (dom s') = true)
    /\ dom (state_of (startMicrophone_resume Denied s)) =
       with_statusMessage "Error accessing microphone." (dom s).
Proof.
  open_state s. destruct ac as [c|]; eexists.
  all: split; [js; reflexivity|].
  all: simpl; repeat split; auto.
Qed.

Lemma startMicrophone_denied_controls_witness :
  exists s',
    startMicrophone Denied init = Ok tt s'
    /\ statusMessage (dom s') = "Error accessing microphone."
    /\ stopMicBtn_disabled (dom s') = true
    /\ toggleDelayBtn_disabled (dom s') = true.
Proof.
  destruct (startMicrophone_denied_controls init)
    as (s' & H1 & H2 & _ & _ & _ & _ & H7 & H8 & _).
  exists s'. split; [exact H1|]. split; [exact H2|].
  split; [apply H7 | apply H8]; reflexivity.
Defined.

(** ** Toggling without a capture source *)

(** C7, as the script has it.  While no capture source exists, a call of
    [toggleDelay] returns and changes nothing but the flag: the graph is
    untouched, the browser is not called, and the status text keeps what
    it read before. *)
Theorem toggleDelay_without_source s :
  micSource (vars s) = None ->
  exists s',
    toggleDelay s = Ok tt s'
    /\ vars s' = with_isDelayEnabled (negb (isDelayEnabled (vars s))) (vars s)
    /\ dom s' = dom s
    /\ env s' = env s.
Proof.
  intros Hm. rewrite (toggleDelay_idle s Hm). eexists. split; [reflexivity|].
  repeat split.
Qed.

Lemma toggleDelay_without_source_witness :
  micSource (vars init) = None
  /\ exists s',
       toggleDelay init = Ok tt s'
       /\ isDelayEnabled (vars s') = true
       /\ statusMessage (dom s') = EmptyString
       /\ graph (env s') = [] /\ calls (env s') = [].
Proof.
  split; [reflexivity|].
  destruct (toggleDelay_without_source init eq_refl) as (s' & H1 & H2 & H3 & H4).
  exists s'. rewrite H2, H3, H4. repeat split. exact H1.
Defined.

(** C7 as worded fails on the loaded page: the flag flips, but the status
    text does not report the new mode. *)
Lemma idle_toggle_reports_nothing :
  micSource (vars init) = None
  /\ ~ (exists s', toggleDelay init = Ok tt s' /\ idle_toggle_per_spec init s').
Proof.
  split; [reflexivity|]. intros (s' & Hrun & _ & _ & Hst).
  vm_compute in Hrun. inversion Hrun; subst. vm_compute in Hst.
  discriminate.
Qed.

(** ** The shared audio context *)

Lemma context_persists ev s c :
  audioContext (vars s) = Some c -> audioContext (vars (step ev s)) = Some c.
Proof.
  open_state s. simpl. intros ->.
  destruct ev; js; branch; reflexivity.
Qed.

Lemma context_persists_exec evs : forall s s' c,
  audioContext (vars s) = Some c -> exec evs s = Some s' ->
  audioContext (vars s') = Some c.
Proof.
  induction evs as [|ev evs IH]; simpl; intros s s' c Hc Hex.
  - inversion Hex; subst; exact Hc.
  - destruct (enabled ev s); [|discriminate].
    eapply IH; [|exact Hex]. apply context_persists, Hc.
Qed.

(** C10.  A denied start returns with the audio context in place: when
    there was none, it is created, and the browser is asked for it before
    it is asked for the microphone.  The controls are as before the call,
    no capture stream or source is recorded, and the context stays through
    every later event. *)
Theorem failed_start_keeps_context s :
  exists s' c,
    startMicrophone Denied s = Ok tt s'
    /\ audioContext (vars s') = Some c
    /\ (audioContext (vars s) = None ->
        calls (env s') = calls (env s) ++ [CNewContext c; CGetUserMedia])
    /\ startMicBtn_disabled (dom s') = startMicBtn_disabled (dom s)
    /\ stopMicBtn_disabled (dom s') = stopMicBtn_disabled (dom s)
    /\ toggleDelayBtn_disabled (dom s') = toggleDelayBtn_disabled (dom s)
    /\ micStream (vars s') = micStream (vars s)
    /\ micSource (vars s') = micSource (vars s)
    /\ (forall evs s'', exec evs s' = Some s'' ->
                        audioContext (vars s'') = Some c).
Proof.
  open_state s. destruct ac as [c|]; eexists; eexists.
  all: split; [js; reflexivity|].
  all: simpl; split; [reflexivity|].
  all: split; [intros E; try discriminate; rewrite <- app_assoc; reflexivity|].
  all: repeat (split; [reflexivity|]).
  all: intros evs s'' Hex; eapply context_persists_exec; [|exact Hex].
  all: reflexivity.
Qed.

Lemma failed_start_keeps_context_witness :
  audioContext (vars init) = None
  /\ exists s' c,
       startMicrophone Denied init = Ok tt s'
       /\ audioContext (vars s') = Some c
       /\ calls (env s') = [CNewContext c; CGetUserMedia]
       /\ stopMicBtn_disabled (dom s') = true
       /\ toggleDelayBtn_disabled (dom s') = true.
Proof.
  split; [reflexivity|].
  destruct (failed_start_keeps_context init)
    as (s' & c & H1 & H2 & H3 & _ & H5 & H6 & _).
  exists s', c. split; [exact H1|]. split; [exact H2|].
  split; [exact (H3 eq_refl)|]. split; [exact H5 | exact H6].
Defined.

(** ** Playing the dropped file *)

Lemma playDroppedAudio_loaded s b0 c :
  droppedAudioBuffer (vars s) = Some b0 -> audioContext (vars s) = Some c ->
  let n := next_id (env s) in
  let old := droppedAudioSource (vars s) in
  playDroppedAudio s =
  Ok tt (mkState
           (with_droppedAudioSource (Some n) (vars s))
           (with_statusMessage "Playing dropped audio." (dom s))
           (mkEngine
              (add_edge (BufSrc n) (Destination c) (graph (env s)))
              (live_streams (env s))
              (match old with
               | Some k => remove_id k (playing (env s))
               | None => playing (env s)
               end ++ [n])
              (frames (env s)) (S n) (next_frame (env s))
              (gum_pending (env s)) (reads_pending (env s))
              (decodes_pending (env s))
              (calls (env s)
               ++ match old with Some k => [CSourceStop k] | None => [] end
               ++ [CCreateBufferSource n; CSetBuffer n b0;
                   CConnect (BufSrc n) (Destination c); CSourceStart n]))).
Proof.
  open_state s. simpl. intros -> ->. js. destruct bsrc; js;
    rewrite <- ?app_assoc; reflexivity.
Qed.

Lemma one_player_length s : one_player s -> List.length (playing (env s)) <= 1.
Proof.
  unfold one_player. destruct (playing (env s)) as [|x [|y l]]; simpl;
    intros H; lia.
Qed.

(** C5.  [playDroppedAudio] does nothing when no file has been decoded.
    Otherwise it returns, having called the browser in this order: stop
    the previous player if there is one, create a new player, give it the
    decoded buffer, connect it to the destination, start it.  The new
    player feeds the destination and nothing else, and it is the only one
    sounding.  In every reachable state at most one player sounds. *)
Theorem playDroppedAudio_one_player s :
  reachable s ->
  (droppedAudioBuffer (vars s) = None -> playDroppedAudio s = Ok tt s)
  /\ (forall buf, droppedAudioBuffer (vars s) = Some buf ->
      exists s' c n,
        playDroppedAudio s = Ok tt s'
        /\ audioContext (vars s') = Some c
        /\ n = next_id (env s)
        /\ droppedAudioSource (vars s') = Some n
        /\ calls (env s') =
           calls (env s)
           ++ match droppedAudioSource (vars s) with
              | Some k => [CSourceStop k]
              | None => []
              end
           ++ [CCreateBufferSource n; CSetBuffer n buf;
               CConnect (BufSrc n) (Destination c); CSourceStart n]
        /\ (forall x, In (BufSrc n, x) (graph (env s')) <-> x = Destination c)
        /\ playing (env s') = [n]
        /\ statusMessage (dom s') = "Playing dropped audio.")
  /\ List.length (playing (env s)) <= 1.
Proof.
  intros Hr. pose proof (reachable_wf s Hr) as Hwf.
  split; [|split].
  - open_state s. simpl. intros ->. js. reflexivity.
  - intros b0 Hb.
    assert (Hc : audioContext (vars s) <> None)
      by (apply (wf_buf s Hwf); congruence).
    destruct (audioContext (vars s)) as [c|] eqn:Ec; [|congruence].
    pose proof (playDroppedAudio_loaded s b0 c Hb Ec) as Hrun.
    pose proof (wf_play s Hwf) as Hp. pose proof (wf_fresh s Hwf) as Hf.
    eexists. exists c, (next_id (env s)). split; [exact Hrun|].
    open_state s. unfold one_player in Hp. simpl in *. subst.
    repeat (split; [reflexivity|]).
    split; [|split; [|reflexivity]].
    + intros x. rewrite In_add_edge. split.
      * intros [E|Hin]; [congruence|]. exfalso.
        eapply fresh_no_edge; [exact Hf| |exact Hin]. simpl. lia.
      * intros ->. left. reflexivity.
    + apply one_player_stop_start. exact Hp.
  - apply one_player_length, wf_play, Hwf.
Qed.

Lemma playDroppedAudio_one_player_witness :
  let s := step ClickPlay
             (step (Decoded (Some 7))
                (step ReaderLoaded
                   (step (DropFiles [mkFile "a.wav" "audio/wav"]) init))) in
  reachable s
  /\ droppedAudioBuffer (vars s) = Some 7
  /\ droppedAudioSource (vars s) = Some 1
  /\ exists s',
       playDroppedAudio s = Ok tt s'
       /\ droppedAudioSource (vars s') = Some 2
       /\ playing (env s') = [2]
       /\ calls (env s') =
          calls (env s) ++ [CSourceStop 1; CCreateBufferSource 2;
                            CSetBuffer 2 7;
                            CConnect (BufSrc 2) (Destination 0);
                            CSourceStart 2].
Proof.
  intros s.
  assert (R : reachable s).
  { exists [DropFiles [mkFile "a.wav" "audio/wav"]; ReaderLoaded;
            Decoded (Some 7); ClickPlay]. reflexivity. }
  split; [exact R|]. split; [reflexivity|]. split; [reflexivity|].
  destruct (playDroppedAudio_one_player s R) as (_ & H & _).
  destruct (H 7 eq_refl) as (s' & c & n & H1 & H2 & H3 & H4 & H5 & _ & H7 & _).
  exists s'. subst n. split; [exact H1|]. split; [exact H4|].
  split; [exact H7|].
  assert (E : s' = state_of (playDroppedAudio s)) by (rewrite H1; reflexivity).
  rewrite E in H2. vm_compute in H2. inversion H2; subst c. exact H5.
Defined.

(** ** Dropping a file *)

(** C6.  A dropped file whose type does not start with "audio/" sets the
    status text and clears the highlight of the drop zone; no variable, no
    control and nothing of the browser changes, so the play control is not
    enabled and the loaded buffer is the one before.  For an audio file
    whose decoding fails the status text reports the error and the loaded
    buffer and the play control are the ones before; when decoding
    succeeds the play control is enabled and the buffer is the new one.
    The last lines give the same for the two decode callbacks alone, when
    other events came in between. *)
Theorem drop_outcomes s f rest :
  (prefix "audio/" (file_type f) = false ->
   exists s',
     on_drop (f :: rest) s = Ok tt s'
     /\ exec [DropFiles (f :: rest)] s = Some s'
     /\ statusMessage (dom s') = "Please drop a valid audio file."
     /\ vars s' = vars s
     /\ env s' = env s
     /\ startMicBtn_disabled (dom s') = startMicBtn_disabled (dom s)
     /\ stopMicBtn_disabled (dom s') = stopMicBtn_disabled (dom s)
     /\ toggleDelayBtn_disabled (dom s') = toggleDelayBtn_disabled (dom s)
     /\ playAudioBtn_disabled (dom s') = playAudioBtn_disabled (dom s))
  /\ (prefix "audio/" (file_type f) = true ->
      exists s',
        exec (drop_and_decode (f :: rest) None) s = Some s'
        /\ statusMessage (dom s') = "Error decoding audio file."
        /\ droppedAudioBuffer (vars s') = droppedAudioBuffer (vars s)
        /\ playAudioBtn_disabled (dom s') = playAudioBtn_disabled (dom s))
  /\ (prefix "audio/" (file_type f) = true ->
      forall b, exists s',
        exec (drop_and_decode (f :: rest) (Some b)) s = Some s'
        /\ statusMessage (dom s') = "Audio file loaded."
        /\ droppedAudioBuffer (vars s') = Some b
        /\ playAudioBtn_disabled (dom s') = false)
  /\ (statusMessage (dom (step (Decoded None) s)) = "Error decoding audio file."
      /\ droppedAudioBuffer (vars (step (Decoded None) s)) =
         droppedAudioBuffer (vars s)
      /\ playAudioBtn_disabled (dom (step (Decoded None) s)) =
         playAudioBtn_disabled (dom s))
  /\ (forall b, playAudioBtn_disabled (dom (step (Decoded (Some b)) s)) = false
                /\ droppedAudioBuffer (vars (step (Decoded (Some b)) s)) = Some b).
Proof.
  destruct f as [nm ty]. open_state s. simpl file_type.
  split; [|split; [|split; [|split]]].
  - intros Hty. eexists. split; [js; rewrite Hty; reflexivity|].
    split; [run_events; rewrite Hty; reflexivity|].
    simpl. repeat split.
  - intros Hty. destruct ac; eexists.
    all: split; [run_events; rewrite Hty; run_events; reflexivity|].
    all: simpl; repeat split.
  - intros Hty b. destruct ac; eexists.
    all: split; [run_events; rewrite Hty; run_events; reflexivity|].
    all: simpl; repeat split.
  - js. repeat split.
  - intros b. js. split; reflexivity.
Qed.

Lemma drop_outcomes_witness :
  prefix "audio/" "text/plain" = false
  /\ prefix "audio/" "audio/mpeg" = true
  /\ (exists s',
        on_drop [mkFile "notes.txt" "text/plain"] init = Ok tt s'
        /\ statusMessage (dom s') = "Please drop a valid audio file."
        /\ playAudioBtn_disabled (dom s') = true
        /\ droppedAudioBuffer (vars s') = None)
  /\ (exists s',
        exec (drop_and_decode [mkFile "song.mp3" "audio/mpeg"] None) init
        = Some s'
        /\ statusMessage (dom s') = "Error decoding audio file."
        /\ droppedAudioBuffer (vars s') = None)
  /\ (exists s',
        exec (drop_and_decode [mkFile "song.mp3" "audio/mpeg"] (Some 5)) init
        = Some s'
        /\ playAudioBtn_disabled (dom s') = false).
Proof.
  split; [reflexivity|]. split; [reflexivity|].
  destruct (drop_outcomes init (mkFile "notes.txt" "text/plain") [])
    as (H1 & _).
  destruct (drop_outcomes init (mkFile "song.mp3" "audio/mpeg") [])
    as (_ & H2 & H3 & _).
  split; [|split].
  - destruct (H1 eq_refl) as (s' & A & _ & B & C & _ & _ & _ & _ & D).
    exists s'. rewrite C, D. repeat split; assumption.
  - destruct (H2 eq_refl) as (s' & A & B & C & _).
    exists s'. rewrite C. repeat split; assumption.
  - destruct (H3 eq_refl 5) as (s' & A & _ & _ & D).
    exists s'. split; assumption.
Defined.

(** ** Stopping the microphone *)

Lemma stopMicrophone_spec s :
  exists s',
    stopMicrophone s = Ok tt s'
    /\ vars s' = vars s
    /\ dom s' = with_statusMessage "Microphone stopped."
                  (with_toggleDelayBtn_disabled true
                     (with_stopMicBtn_disabled true (dom s)))
    /\ graph (env s') = graph (env s)
    /\ next_id (env s') = next_id (env s).
Proof.
  open_state s. destruct ms as [k|]; destruct aid as [[|i]|]; eexists.
  all: split; [js; reflexivity|].
  all: repeat split.
Qed.

Lemma stopMicrophone_idle s :
  micStream (vars s) = None -> animationId (vars s) = None ->
  stopMicrophone s =
  Ok tt (upd_dom (fun d => with_statusMessage "Microphone stopped."
                    (with_toggleDelayBtn_disabled true
                       (with_stopMicBtn_disabled true d))) s).
Proof. open_state s. simpl. intros -> ->. js. reflexivity. Qed.

Lemma idle_mic_step ev s :
  idle_mic s -> ev <> MicSettled Granted -> enabled ev s = true ->
  idle_mic (step ev s).
Proof.
  unfold idle_mic. open_state s. simpl. intros (-> & -> & ->) Hev En.
  destruct ev; simpl in En; try discriminate; js; branch;
    try (repeat split; reflexivity).
  all: exfalso; apply Hev; reflexivity.
Qed.

Lemma idle_mic_exec evs : forall s s',
  idle_mic s -> never_granted evs -> exec evs s = Some s' -> idle_mic s'.
Proof.
  unfold never_granted.
  induction evs as [|ev evs IH]; simpl; intros s s' Hi Hn Hex.
  - inversion Hex; subst; exact Hi.
  - destruct (enabled ev s) eqn:En; [|discriminate].
    apply (IH (step ev s)); [|tauto|exact Hex].
    apply idle_mic_step; [exact Hi| |exact En].
    intros E. apply Hn. left. exact E.
Qed.

(** C8.  [stopMicrophone] never throws.  In a state reached without any
    granted start, it calls nothing of the browser: no track is stopped,
    no animation callback is cancelled, no variable changes; it only
    disables the two controls and sets the status text. *)
Theorem stopMicrophone_before_any_start evs s :
  exec evs init = Some s -> never_granted evs ->
  (forall s0, returns (stopMicrophone s0) = true)
  /\ exists s',
       stopMicrophone s = Ok tt s'
       /\ env s' = env s
       /\ live_streams (env s') = live_streams (env s)
       /\ frames (env s') = frames (env s)
       /\ calls (env s') = calls (env s)
       /\ vars s' = vars s
       /\ stopMicBtn_disabled (dom s') = true
       /\ toggleDelayBtn_disabled (dom s') = true.
Proof.
  intros Hex Hn. split.
  - intros s0. destruct (stopMicrophone_spec s0) as (s' & -> & _).
    reflexivity.
  - assert (Hi : idle_mic s).
    { eapply idle_mic_exec; [|exact Hn|exact Hex]. repeat split. }
    destruct Hi as (Hs & Ha & _).
    rewrite (stopMicrophone_idle s Hs Ha). eexists. split; [reflexivity|].
    repeat split.
Qed.

Lemma stopMicrophone_before_any_start_witness :
  let evs := [ClickStart; MicSettled Denied;
              DropFiles [mkFile "a.wav" "audio/wav"]; ReaderLoaded] in
  exists s,
    exec evs init = Some s
    /\ never_granted evs
    /\ exists s', stopMicrophone s = Ok tt s' /\ env s' = env s.
Proof.
  intros evs. eexists. split; [reflexivity|].
  assert (Hn : never_granted evs).
  { unfold never_granted, evs. simpl.
    intros [H|[H|[H|[H|[]]]]]; discriminate. }
  split; [exact Hn|].
  destruct (stopMicrophone_before_any_start evs _ eq_refl Hn)
    as (_ & s' & H1 & H2 & _).
  exists s'. split; assumption.
Defined.

(** ** The mode across a stop *)

Lemma reachable_exec evs s s' :
  reachable s -> exec evs s = Some s' -> reachable s'.
Proof.
  intros [evs0 H0] Hex. exists (evs0 ++ evs). rewrite exec_app, H0.
  exact Hex.
Qed.

Lemma xorb_odd_succ b n : xorb (negb b) (Nat.odd n) = xorb b (Nat.odd (S n)).
Proof.
  rewrite Nat.odd_succ, <- Nat.negb_odd.
  destruct b, (Nat.odd n); reflexivity.
Qed.

(** A run of clicks on "Toggle Delay" while the microphone runs. *)
Lemma toggles_spec n : forall s,
  reachable s -> toggleDelayBtn_disabled (dom s) = false ->
  stopMicBtn_disabled (dom s) = false ->
  exists s',
    exec (toggles n) s = Some s'
    /\ isDelayEnabled (vars s') = xorb (isDelayEnabled (vars s)) (Nat.odd n)
    /\ toggleDelayBtn_disabled (dom s') = false
    /\ stopMicBtn_disabled (dom s') = false
    /\ micSource (vars s') = micSource (vars s).
Proof.
  unfold toggles. induction n as [|n IH]; intros s Hr Ht Hs.
  - exists s. simpl. rewrite xorb_false_r. repeat split; assumption.
  - pose proof (reachable_wf s Hr) as Hwf.
    destruct (micSource (vars s)) as [m|] eqn:Hm;
      [|exfalso; apply (wf_running s Hwf Hs); exact Hm].
    destruct (wf_active s m Hwf Hm) as (c & d & a & Hc & Hd & Ha).
    pose proof (toggleDelay_active s m c d Hm Hc Hd) as Hrun.
    assert (En : enabled ClickToggle s = true) by (simpl; rewrite Ht; reflexivity).
    destruct (IH (step ClickToggle s)) as (s' & Hex & Hon & Ht' & Hs' & Hm').
    + apply reachable_step; assumption.
    + unfold step. simpl handle. rewrite Hrun. simpl. exact Ht.
    + unfold step. simpl handle. rewrite Hrun. simpl. exact Hs.
    + exists s'. simpl repeat. cbn [exec]. rewrite En.
      split; [exact Hex|]. rewrite Hon, Hm'. unfold step. simpl handle.
      rewrite Hrun. simpl. rewrite Hm.
      split; [apply xorb_odd_succ|]. repeat split; assumption.
Qed.

(** C9.  [stopMicrophone] never writes the delay flag.  From any reachable
    state, start the microphone, click "Toggle Delay" n times, stop, and
    start again: every step goes through, the flag after the second start
    is the one the last toggle left, and the capture source created by the
    second start has exactly one route to the destination, the one of that
    mode. *)
Theorem mode_survives_stop s n :
  reachable s ->
  (forall s0, isDelayEnabled (vars (state_of (stopMicrophone s0))) =
              isDelayEnabled (vars s0))
  /\ exists s1 s2 m c d,
       exec (start_granted ++ toggles n) s = Some s1
       /\ isDelayEnabled (vars s1) = xorb (isDelayEnabled (vars s)) (Nat.odd n)
       /\ exec (ClickStop :: start_granted) s1 = Some s2
       /\ isDelayEnabled (vars s2) = isDelayEnabled (vars s1)
       /\ micSource (vars s2) = Some m
       /\ micSource (vars s2) <> micSource (vars s1)
       /\ audioContext (vars s2) = Some c
       /\ delayNode (vars s2) = Some d
       /\ delayed_route s2 m d c = isDelayEnabled (vars s1)
       /\ direct_route s2 m c = negb (isDelayEnabled (vars s1))
       /\ (forall l, route (graph (env s2)) (MicSrc m) l (Destination c) <->
                     l = if isDelayEnabled (vars s1) then [DelayN d] else []).
Proof.
  intros Hr. split.
  { intros s0. destruct (stopMicrophone_spec s0) as (s' & H1 & H2 & _).
    rewrite H1. simpl. rewrite H2. reflexivity. }
  pose proof (wf_start s (reachable_wf s Hr)) as Hst.
  (* the first start *)
  destruct (start_granted_spec s Hst)
    as (sa & ma & ca & da & aa & Hexa & _ & Hma & _ & _ & _ & _ & Hona & Hdoma & _).
  pose proof (reachable_exec _ _ _ Hr Hexa) as Hra.
  (* the toggles *)
  destruct (toggles_spec n sa Hra) as (s1 & Hex1 & Hon1 & Ht1 & Hs1 & Hm1).
  { rewrite Hdoma. reflexivity. }
  { rewrite Hdoma. reflexivity. }
  pose proof (reachable_exec _ _ _ Hra Hex1) as Hr1.
  pose proof (reachable_wf s1 Hr1) as Hwf1.
  (* the stop *)
  destruct (stopMicrophone_spec s1) as (sb & Hrunb & Hvb & Hdb & Hgb & Hnb).
  assert (Hsb : step ClickStop s1 = sb)
    by (unfold step; simpl handle; rewrite Hrunb; reflexivity).
  assert (Enb : enabled ClickStop s1 = true)
    by (simpl; rewrite Hs1; reflexivity).
  assert (Hrb : reachable sb)
    by (rewrite <- Hsb; apply reachable_step; assumption).
  pose proof (reachable_wf sb Hrb) as Hwfb.
  (* the second start *)
  destruct (start_granted_spec sb (wf_start sb Hwfb))
    as (s2 & m & c & d & a & Hex2 & _ & Hm2 & Hc2 & Hd2 & _ & _ & Hon2
        & _ & Hg2 & Hfresh).
  exists s1, s2, m, c, d.
  split; [rewrite exec_app, Hexa; exact Hex1|].
  split; [rewrite Hon1, Hona; reflexivity|].
  split; [cbn [exec]; rewrite Enb, Hsb; exact Hex2|].
  assert (Hon : isDelayEnabled (vars s2) = isDelayEnabled (vars s1))
    by (rewrite Hon2, Hvb; reflexivity).
  split; [exact Hon|]. split; [exact Hm2|].
  split.
  { rewrite Hm2. intros E. symmetry in E.
    pose proof (wf_src_id s1 Hwf1 m E) as Hlt.
    rewrite Hnb in Hfresh. lia. }
  split; [exact Hc2|]. split; [exact Hd2|].
  destruct (wired_routes (isDelayEnabled (vars sb)) m d c
              (add_edge (MicSrc m) (AnalyserN a) (graph (env sb))))
    as (_ & Hdir & Hdel & Hroute).
  { apply Forall_add_edge; [reflexivity | apply wf_edges, Hwfb]. }
  { intros x Hx. apply In_add_edge in Hx. destruct Hx as [E|Hx].
    - inversion E. eauto.
    - exfalso. eapply fresh_no_edge; [apply (wf_fresh sb Hwfb)| |exact Hx].
      exact Hfresh. }
  unfold delayed_route, direct_route. rewrite Hg2.
  rewrite Hvb in *. rewrite Hdir, Hdel.
  split; [reflexivity|]. split; [reflexivity|]. exact Hroute.
Qed.

Lemma mode_survives_stop_witness :
  reachable init
  /\ exists s1 s2 m c d,
       exec (start_granted ++ toggles 3) init = Some s1
       /\ isDelayEnabled (vars s1) = true
       /\ exec (ClickStop :: start_granted) s1 = Some s2
       /\ micSource (vars s2) = Some m
       /\ audioContext (vars s2) = Some c
       /\ delayNode (vars s2) = Some d
       /\ delayed_route s2 m d c = true
       /\ direct_route s2 m c = false.
Proof.
  assert (R : reachable init) by (exists []; reflexivity).
  split; [exact R|].
  destruct (mode_survives_stop init 3 R)
    as (_ & s1 & s2 & m & c & d & H1 & H2 & H3 & _ & H5 & _ & H7 & H8 & H9
        & H10 & _).
  exists s1, s2, m, c, d.
  assert (E : isDelayEnabled (vars s1) = true) by (rewrite H2; reflexivity).
  rewrite E in H9, H10.
  repeat split; assumption.
Defined.

(** * Further properties of the script *)

(** ** No handler fails *)

Lemma handle_opens_try ev :
  handle ev =
  if has_try ev then try_catch (handle_body ev) startMicrophone_catch
  else handle_body ev.
Proof. destruct ev; reflexivity. Qed.

(** X1.  In every reachable state, whatever event the page can receive,
    its handler runs to its end, and not because a [catch] hides a
    failure: with the [try] of [startMicrophone] opened, the statements of
    every handler still run to their end, except that a denied request
    for the microphone raises its rejection, and nothing else, at the
    [await].  So no handler ever reads a property of an unset variable. *)
Theorem no_uncaught_exception ev s :
  reachable s -> enabled ev s = true ->
  returns (handle ev s) = true
  /\ (handle ev =
      if has_try ev then try_catch (handle_body ev) startMicrophone_catch
      else handle_body ev)
  /\ match handle_body ev s with
     | Ok _ _ => ev <> MicSettled Denied
     | Throw e _ => e = MediaError /\ ev = MicSettled Denied
     end.
Proof.
  intros Hr En. pose proof (reachable_wf s Hr) as Hwf.
  split; [apply handlers_return; assumption|].
  split; [apply handle_opens_try|].
  destruct Hwf as [H1 H2 H3 H4 H5 Hs Hd H6 H7 H8 Hrun Hst]. open_state s.
  simpl in *.
  destruct ev; simpl in En;
    try match goal with a : Access |- _ => destruct a end;
    unfold handle_body, startMicrophone_call_body,
      startMicrophone_resume_body;
    js; branch; try discriminate; try (split; reflexivity).
  all: try (apply Nat.ltb_lt in En).
  all: try (apply mem_nonempty in En).
  all: exfalso.
  all: try (apply H3; [lia | reflexivity]).
  all: try (apply H5; [assumption | reflexivity]).
  all: try (apply H2; [discriminate | reflexivity]).
  all: try (destruct H1 as [Ha [Hb Hc]]; [discriminate|];
            (apply Ha; reflexivity) || (apply Hb; reflexivity)
            || (apply Hc; reflexivity)).
Qed.

Lemma no_uncaught_exception_witness :
  let s := step ClickStart init in
  reachable s /\ enabled (MicSettled Granted) s = true
  /\ returns (handle (MicSettled Granted) s) = true
  /\ returns (startMicrophone_resume_body Granted s) = true.
Proof.
  intros s.
  assert (R : reachable s) by (exists [ClickStart]; reflexivity).
  split; [exact R|]. split; [reflexivity|].
  destruct (no_uncaught_exception (MicSettled Granted) s R eq_refl)
    as (H1 & _ & H3).
  split; [exact H1|].
  change (handle_body (MicSettled Granted) s)
    with (startMicrophone_resume_body Granted s) in H3.
  destruct (startMicrophone_resume_body Granted s) as [u s'|e s'];
    [reflexivity|]. destruct H3 as [_ H3]. discriminate H3.
Defined.

(** ** The play control and the decoded file *)

Lemma play_matches_buffer_step ev s :
  play_matches_buffer s -> play_matches_buffer (step ev s).
Proof.
  unfold play_matches_buffer. open_state s. simpl. intros H.
  destruct ev; js; branch; simpl; try exact H.
  all: split; intros; congruence.
Qed.

Lemma buffer_stays_step ev s :
  droppedAudioBuffer (vars s) <> None ->
  droppedAudioBuffer (vars (step ev s)) <> None.
Proof.
  open_state s. simpl. intros H.
  destruct ev; js; branch; simpl; try exact H; try discriminate.
  all: exfalso; apply H; reflexivity.
Qed.

Lemma play_matches_buffer_exec evs : forall s s',
  play_matches_buffer s -> exec evs s = Some s' -> play_matches_buffer s'.
Proof.
  induction evs as [|ev evs IH]; simpl; intros s s' Hp Hex.
  - inversion Hex; subst; exact Hp.
  - destruct (enabled ev s); [|discriminate].
    eapply IH; [|exact Hex]. apply play_matches_buffer_step, Hp.
Qed.

Lemma buffer_stays_exec evs : forall s s',
  droppedAudioBuffer (vars s) <> None -> exec evs s = Some s' ->
  droppedAudioBuffer (vars s') <> None.
Proof.
  induction evs as [|ev evs IH]; simpl; intros s s' Hb Hex.
  - inversion Hex; subst; exact Hb.
  - destruct (enabled ev s); [|discriminate].
    eapply IH; [|exact Hex]. apply buffer_stays_step, Hb.
Qed.

(** X2.  In every reachable state the play control is enabled exactly when
    a decoded file is held, and a decoded file, once held, is never lost:
    later drops can only replace it, and the play control stays enabled. *)
Theorem play_enabled_iff_loaded s :
  reachable s ->
  (enabled ClickPlay s = true <-> droppedAudioBuffer (vars s) <> None)
  /\ forall evs s',
       exec evs s = Some s' -> droppedAudioBuffer (vars s) <> None ->
       droppedAudioBuffer (vars s') <> None
       /\ playAudioBtn_disabled (dom s') = false.
Proof.
  intros [evs0 H0].
  assert (Hp0 : play_matches_buffer init)
    by (split; [discriminate | intros H; exfalso; apply H; reflexivity]).
  pose proof (play_matches_buffer_exec _ _ _ Hp0 H0) as Hp.
  split.
  - simpl. unfold play_matches_buffer in Hp. rewrite negb_true_iff. exact Hp.
  - intros evs s' Hex Hb.
    pose proof (buffer_stays_exec _ _ _ Hb Hex) as Hb'.
    split; [exact Hb'|].
    apply (play_matches_buffer_exec _ _ _ Hp Hex). exact Hb'.
Qed.

Lemma play_enabled_iff_loaded_witness :
  let s := step (Decoded (Some 7))
             (step ReaderLoaded
                (step (DropFiles [mkFile "a.wav" "audio/wav"]) init)) in
  reachable s
  /\ enabled ClickPlay s = true
  /\ exists s',
       exec [ClickStart; MicSettled Denied; ClickPlay] s = Some s'
       /\ playAudioBtn_disabled (dom s') = false.
Proof.
  intros s.
  assert (R : reachable s).
  { exists [DropFiles [mkFile "a.wav" "audio/wav"]; ReaderLoaded;
            Decoded (Some 7)]. reflexivity. }
  split; [exact R|].
  destruct (play_enabled_iff_loaded s R) as [[_ H1] H2].
  split; [apply H1; discriminate|].
  assert (Hb : droppedAudioBuffer (vars s) <> None) by discriminate.
  destruct (H2 [ClickStart; MicSettled Denied; ClickPlay] _ eq_refl Hb)
    as [_ Hplay].
  eexists. split; [reflexivity | exact Hplay].
Defined.

(** ** One audio context *)

Ltac edges_in H :=
  repeat match type of H with
         | In _ (add_edge _ _ _) =>
             apply In_add_edge in H; destruct H as [H|H];
             [inversion H; subst; try reflexivity|]
         | In _ (drop_outputs _ _) =>
             apply In_drop_outputs in H; destruct H as [H _]
         end.

Lemma one_context_step ev s : one_context s -> one_context (step ev s).
Proof.
  unfold one_context, contexts_created. open_state s. simpl.
  intros [Hc He].
  destruct ev; js; branch; simpl.
  all: rewrite ?filter_app; simpl; rewrite ?app_nil_r.
  all: split; [try exact Hc; try (rewrite Hc; reflexivity)|].
  all: try exact He.
  all: try (intros x c0 Hin; edges_in Hin; eauto;
            match goal with
            | H : forall a c, In _ _ -> None = Some c |- _ =>
                specialize (H _ _ Hin); discriminate
            end).
Qed.

Lemma one_context_exec evs : forall s s',
  one_context s -> exec evs s = Some s' -> one_context s'.
Proof.
  induction evs as [|ev evs IH]; simpl; intros s s' Hp Hex.
  - inversion Hex; subst; exact Hp.
  - destruct (enabled ev s); [|discriminate].
    eapply IH; [|exact Hex]. apply one_context_step, Hp.
Qed.

(** X3.  The page never creates a second audio context: in every reachable
    state the browser has been asked for at most one, it is the one
    [audioContext] holds, and every connection into a destination goes to
    the destination of that context.  Microphone and file playback share
    it, whichever came first. *)
Theorem single_audio_context s :
  reachable s ->
  List.length (contexts_created s) <= 1
  /\ (forall c, audioContext (vars s) = Some c <->
                In (CNewContext c) (calls (env s)))
  /\ (forall a c, In (a, Destination c) (graph (env s)) ->
                  audioContext (vars s) = Some c).
Proof.
  intros [evs H].
  assert (H0 : one_context init) by (split; [reflexivity | intros a c []]).
  destruct (one_context_exec _ _ _ H0 H) as [Hc He].
  assert (Hf : forall c, In (CNewContext c) (calls (env s)) <->
                         In (CNewContext c) (contexts_created s)).
  { intros c. unfold contexts_created. rewrite filter_In. simpl. tauto. }
  split; [|split; [|exact He]].
  - destruct (audioContext (vars s)); rewrite Hc; simpl; lia.
  - intros c. rewrite Hf. destruct (audioContext (vars s)) as [c0|];
      rewrite Hc; simpl; split.
    + intros E. inversion E. auto.
    + intros [E|[]]. inversion E. reflexivity.
    + discriminate.
    + intros [].
Qed.

Lemma single_audio_context_witness :
  let s := step ReaderLoaded
             (step (DropFiles [mkFile "a.wav" "audio/wav"])
                (step (MicSettled Granted) (step ClickStart init))) in
  reachable s
  /\ List.length (contexts_created s) <= 1
  /\ audioContext (vars s) = Some 0.
Proof.
  intros s.
  assert (R : reachable s).
  { exists [ClickStart; MicSettled Granted;
            DropFiles [mkFile "a.wav" "audio/wav"]; ReaderLoaded].
    reflexivity. }
  split; [exact R|].
  destruct (single_audio_context s R) as (H1 & _ & _).
  split; [exact H1 | reflexivity].
Defined.

(** ** Connections are kept *)

Lemma edge_kept_step ev s e :
  In e (graph (env s)) ->
  In e (graph (env (step ev s)))
  \/ (ev = ClickToggle
      /\ exists m, micSource (vars s) = Some m /\ fst e = MicSrc m).
Proof.
  open_state s. simpl. intros Hin.
  destruct ev; js; branch; simpl; auto.
  all: try (left; repeat (apply In_add_edge; right); exact Hin).
  all: match goal with
       | |- context [drop_outputs (MicSrc ?m) _] =>
           destruct (node_eqb (fst e) (MicSrc m)) eqn:E;
           [apply node_eqb_eq in E; right; split; [reflexivity|];
            exists m; split; [reflexivity | exact E]
           |apply node_eqb_neq in E; left;
            repeat (apply In_add_edge; right);
            apply In_drop_outputs; split; assumption]
       end.
Qed.

Lemma earlier_source_step m ev s :
  earlier_source m s -> earlier_source m (step ev s).
Proof.
  unfold earlier_source. open_state s. simpl. intros [Hne Hlt].
  destruct ev; js; branch; simpl.
  all: split; [try exact Hne; intros E; inversion E; lia | lia].
Qed.

Lemma earlier_edge_exec e evs : forall s s',
  In e (graph (env s)) ->
  (forall m, fst e = MicSrc m -> earlier_source m s) ->
  exec evs s = Some s' -> In e (graph (env s')).
Proof.
  induction evs as [|ev evs IH]; simpl; intros s s' Hin Hold Hex.
  - inversion Hex; subst; exact Hin.
  - destruct (enabled ev s); [|discriminate].
    apply (IH (step ev s)); [| |exact Hex].
    + destruct (edge_kept_step ev s e Hin) as [H|(_ & m & Hm & E)];
        [exact H|]. exfalso. destruct (Hold m E) as [Hne _]. exact (Hne Hm).
    + intros m E. apply earlier_source_step, Hold, E.
Qed.

(** X4.  A connection of the audio graph is removed by one event only: a
    click on "Toggle Delay", and then only if it leaves the current capture
    source.  So stopping the microphone disconnects nothing, and the
    connections of one-shot players, of delay nodes and of the capture
    sources of earlier starts stay in the graph through every later
    event. *)
Theorem connections_only_removed_by_toggle s e :
  In e (graph (env s)) ->
  (forall ev,
      In e (graph (env (step ev s)))
      \/ (ev = ClickToggle
          /\ exists m, micSource (vars s) = Some m /\ fst e = MicSrc m))
  /\ ((forall m, fst e <> MicSrc m) ->
      forall evs s', exec evs s = Some s' -> In e (graph (env s')))
  /\ (reachable s ->
      (forall m, micSource (vars s) = Some m -> fst e <> MicSrc m) ->
      forall evs s', exec evs s = Some s' -> In e (graph (env s'))).
Proof.
  intros Hin. split; [|split].
  - intros ev. apply edge_kept_step, Hin.
  - intros Hne evs s' Hex. apply (earlier_edge_exec e evs s s' Hin); auto.
    intros m E. exfalso. exact (Hne m E).
  - intros Hr Hcur evs s' Hex.
    apply (earlier_edge_exec e evs s s' Hin); [|exact Hex].
    intros m E. split.
    + intros Hm. exact (Hcur m Hm E).
    + pose proof (wf_fresh s (reachable_wf s Hr)) as Hf.
      rewrite Forall_forall in Hf. specialize (Hf e Hin).
      unfold edge_below in Hf. rewrite E in Hf. exact Hf.
Qed.

Lemma connections_only_removed_by_toggle_witness :
  let s := step (MicSettled Granted)
             (step ClickStart
                (step (MicSettled Granted) (step ClickStart init))) in
  reachable s
  /\ In (MicSrc 2, Destination 0) (graph (env s))
  /\ micSource (vars s) = Some 6
  /\ exists s',
       exec [ClickToggle; ClickStop; ClickStart; MicSettled Granted;
             ClickToggle; Frame 3] s = Some s'
       /\ In (MicSrc 2, Destination 0) (graph (env s')).
Proof.
  intros s.
  assert (R : reachable s).
  { exists [ClickStart; MicSettled Granted; ClickStart; MicSettled Granted].
    vm_compute. reflexivity. }
  assert (Hin : In (MicSrc 2, Destination 0) (graph (env s)))
    by (vm_compute; tauto).
  split; [exact R|]. split; [exact Hin|].
  split; [vm_compute; reflexivity|].
  destruct (connections_only_removed_by_toggle s _ Hin) as (_ & _ & H).
  assert (Hcur : forall m, micSource (vars s) = Some m ->
                           fst (MicSrc 2, Destination 0) <> MicSrc m).
  { intros m Hm E. vm_compute in Hm. inversion Hm; subst m.
    discriminate E. }
  destruct (exec [ClickToggle; ClickStop; ClickStart; MicSettled Granted;
                  ClickToggle; Frame 3] s)
    as [s'|] eqn:Hex; [|vm_compute in Hex; discriminate].
  exists s'. split; [reflexivity | exact (H R Hcur _ _ Hex)].
Defined.

(** ** The two halves of the page *)

(** X5.  The microphone and the dropped file do not touch each other's
    state.  An event of the microphone side (start, the answer to the
    request, stop, toggle, an animation frame) leaves the decoded buffer,
    the player, the play control, the drop zone and the pending reads and
    decodings as they are; every other event leaves the capture stream
    and source, the delay and analyser nodes, the delay flag, the frame
    handle, the stop and toggle controls, the live tracks and the
    scheduled frames as they are. *)
Theorem microphone_and_file_independent ev s :
  (mic_event ev = true -> file_side (step ev s) = file_side s)
  /\ (mic_event ev = false -> mic_side (step ev s) = mic_side s).
Proof.
  unfold file_side, mic_side. open_state s. simpl.
  split; intros Hev; destruct ev; try discriminate Hev; js; branch;
    reflexivity.
Qed.

Lemma microphone_and_file_independent_witness :
  let s := step (Decoded (Some 7))
             (step ReaderLoaded
                (step (DropFiles [mkFile "a.wav" "audio/wav"])
                   (step (MicSettled Granted) (step ClickStart init)))) in
  file_side (step ClickStop s) = file_side s
  /\ mic_side (step ClickPlay s) = mic_side s.
Proof.
  intros s.
  destruct (microphone_and_file_independent ClickStop s) as [H1 _].
  destruct (microphone_and_file_independent ClickPlay s) as [_ H2].
  split; [apply H1 | apply H2]; reflexivity.
Defined.

(** ** Before the first grant *)

Lemma not_started_step ev s :
  not_started s -> ev <> MicSettled Granted -> enabled ev s = true ->
  not_started (step ev s).
Proof.
  unfold not_started. open_state s. simpl.
  intros (-> & -> & -> & -> & -> & Hg) Hev En.
  destruct ev; simpl in En; try discriminate; js; branch; simpl.
  all: try (exfalso; apply Hev; reflexivity).
  all: repeat (split; [reflexivity|]).
  all: try exact Hg.
  all: intros m x Hin; edges_in Hin; eapply Hg; eassumption.
Qed.

Lemma not_started_exec evs : forall s s',
  not_started s -> never_granted evs -> exec evs s = Some s' ->
  not_started s'.
Proof.
  unfold never_granted.
  induction evs as [|ev evs IH]; simpl; intros s s' Hi Hn Hex.
  - inversion Hex; subst; exact Hi.
  - destruct (enabled ev s) eqn:En; [|discriminate].
    apply (IH (step ev s)); [|tauto|exact Hex].
    apply not_started_step; [exact Hi| |exact En].
    intros E. apply Hn. left. exact E.
Qed.

(** X6.  Until the browser first grants the microphone, whatever else
    happens on the page, the stop and toggle controls stay disabled (so
    neither handler can be clicked), the delay flag is still false, there is
    no capture source and no live track.  Hence the first granted start
    always wires the capture source straight to the destination. *)
Theorem first_start_is_direct evs s :
  exec evs init = Some s -> never_granted evs ->
  not_started s
  /\ enabled ClickToggle s = false
  /\ enabled ClickStop s = false
  /\ exists s' m c,
       exec start_granted s = Some s'
       /\ micSource (vars s') = Some m
       /\ audioContext (vars s') = Some c
       /\ isDelayEnabled (vars s') = false
       /\ (forall l, route (graph (env s')) (MicSrc m) l (Destination c) <->
                     l = []).
Proof.
  intros Hex Hn.
  assert (Hns : not_started s).
  { eapply not_started_exec; [|exact Hn|exact Hex].
    repeat split. intros m x []. }
  assert (Hr : reachable s) by (exists evs; exact Hex).
  pose proof (reachable_wf s Hr) as Hwf.
  destruct Hns as (Hs & Ht & Hon & Hrest).
  split; [repeat split; tauto|].
  split; [simpl; rewrite Ht; reflexivity|].
  split; [simpl; rewrite Hs; reflexivity|].
  destruct (start_granted_spec s (wf_start s Hwf))
    as (s' & m & c & d & a & Hex' & _ & Hm & Hc & _ & _ & _ & Hon' & _
        & Hg & Hfresh).
  exists s', m, c. split; [exact Hex'|]. split; [exact Hm|].
  split; [exact Hc|]. split; [rewrite Hon'; exact Hon|].
  destruct (wired_routes false m d c
              (add_edge (MicSrc m) (AnalyserN a) (graph (env s))))
    as (_ & _ & _ & Hroute).
  { apply Forall_add_edge; [reflexivity | apply wf_edges, Hwf]. }
  { intros x Hx. apply In_add_edge in Hx. destruct Hx as [E|Hx].
    - inversion E. eauto.
    - exfalso. eapply fresh_no_edge; [apply (wf_fresh s Hwf)| |exact Hx].
      exact Hfresh. }
  rewrite Hg, Hon. exact Hroute.
Qed.

Lemma first_start_is_direct_witness :
  let evs := [ClickStart; MicSettled Denied;
              DropFiles [mkFile "a.wav" "audio/wav"]; ReaderLoaded;
              Decoded (Some 3); ClickPlay] in
  exists s,
    exec evs init = Some s /\ never_granted evs
    /\ enabled ClickToggle s = false
    /\ exists s' m, exec start_granted s = Some s'
                    /\ micSource (vars s') = Some m
                    /\ isDelayEnabled (vars s') = false.
Proof.
  intros evs.
  destruct (exec evs init) as [s|] eqn:Hex; [|vm_compute in Hex; discriminate].
  assert (Hn : never_granted evs).
  { unfold never_granted, evs. simpl.
    intros [H|[H|[H|[H|[H|[H|[]]]]]]]; discriminate. }
  exists s. split; [reflexivity|]. split; [exact Hn|].
  destruct (first_start_is_direct evs s Hex Hn)
    as (_ & Ht & _ & s' & m & c & H1 & H2 & _ & H4 & _).
  split; [exact Ht|]. exists s', m. repeat split; assumption.
Defined.

(** ** The drawing loop *)

Lemma loop_matches_mic_step ev s :
  loop_matches_mic s -> enabled ev s = true ->
  (ev = MicSettled Granted -> stopMicBtn_disabled (dom s) = true) ->
  loop_matches_mic (step ev s).
Proof.
  unfold loop_matches_mic, single_loop. open_state s. simpl.
  intros [Hn Hl] En Hg.
  destruct b2.
  - (* the microphone is stopped: nothing is scheduled *)
    subst fr.
    destruct ev; simpl in En; try discriminate; js; branch; simpl.
    all: try (split; [lia | reflexivity]).
    all: split; [lia|].
    all: eexists; split; [reflexivity|]; split; [reflexivity|]; lia.
  - (* the microphone runs: one callback is scheduled *)
    destruct Hl as (id & -> & -> & Hid).
    destruct ev; simpl in En; try discriminate.
    all: try match goal with a : Access |- _ => destruct a end.
    all: try (specialize (Hg eq_refl); discriminate).
    all: try (rewrite orb_false_r in En; apply Nat.eqb_eq in En; subst id0).
    all: destruct id as [|i]; [lia|].
    all: js; branch; rewrite ?remove_id_single; simpl.
    all: try (split; [lia | reflexivity]).
    all: split; [lia|].
    all: eexists; split; [reflexivity|]; split; [reflexivity|]; lia.
Qed.

Lemma loop_matches_mic_exec evs : forall s s',
  loop_matches_mic s -> exec evs s = Some s' -> no_overlap evs s = true ->
  loop_matches_mic s'.
Proof.
  induction evs as [|ev evs IH]; simpl; intros s s' Hl Hex Hno.
  - inversion Hex; subst; exact Hl.
  - destruct (enabled ev s) eqn:En; [|discriminate].
    apply (IH (step ev s)); [|exact Hex|].
    + apply loop_matches_mic_step; [exact Hl | exact En |].
      intros ->. apply andb_true_iff in Hno. tauto.
    + destruct ev; try exact Hno. destruct a; [|exact Hno].
      apply andb_true_iff in Hno. tauto.
Qed.

(** X7.  As long as no grant of the microphone arrives while it is already
    running, the drawing loop runs exactly while the microphone runs: with
    the stop control enabled one animation callback is scheduled, the one
    [animationId] names, however many frames have been drawn; with the stop
    control disabled none is scheduled. *)
Theorem loop_runs_with_microphone evs s :
  exec evs init = Some s -> no_overlap evs init = true ->
  (stopMicBtn_disabled (dom s) = false ->
   exists id, frames (env s) = [id] /\ animationId (vars s) = Some id)
  /\ (stopMicBtn_disabled (dom s) = true -> frames (env s) = []).
Proof.
  intros Hex Hno.
  assert (H0 : loop_matches_mic init) by (split; [simpl; lia | reflexivity]).
  destruct (loop_matches_mic_exec _ _ _ H0 Hex Hno) as [_ Hl].
  split; intros Hs; rewrite Hs in Hl.
  - destruct Hl as (id & H1 & H2 & _). exists id. split; assumption.
  - exact Hl.
Qed.

Lemma loop_runs_with_microphone_witness :
  let evs := [ClickStart; MicSettled Granted; Frame 1; Frame 2; ClickToggle;
              Frame 3] in
  exists s,
    exec evs init = Some s /\ no_overlap evs init = true
    /\ frames (env s) = [4]
    /\ exec (evs ++ [ClickStop]) init <> None
    /\ forall s', exec (evs ++ [ClickStop]) init = Some s' ->
                  frames (env s') = [].
Proof.
  intros evs.
  destruct (exec evs init) as [s|] eqn:Hex; [|vm_compute in Hex; discriminate].
  assert (Hno : no_overlap evs init = true) by (vm_compute; reflexivity).
  exists s. split; [reflexivity|]. split; [exact Hno|].
  destruct (loop_runs_with_microphone evs s Hex Hno) as [H1 _].
  assert (E : Some s = Some (state_of (Ok tt s))) by reflexivity.
  split.
  { rewrite <- Hex in E. vm_compute in E. inversion E. reflexivity. }
  split; [vm_compute; discriminate|].
  intros s' Hex'.
  assert (Hno' : no_overlap (evs ++ [ClickStop]) init = true)
    by (vm_compute; reflexivity).
  destruct (loop_runs_with_microphone _ s' Hex' Hno') as [_ H2].
  apply H2.
  assert (E' : Some s' = Some (state_of (Ok tt s'))) by reflexivity.
  rewrite <- Hex' in E'. vm_compute in E'. inversion E'. reflexivity.
Defined.

(** ** Capture streams *)

Lemma In_remove_id x k l : In x (remove_id k l) <-> In x l /\ x <> k.
Proof.
  unfold remove_id. rewrite filter_In, negb_true_iff, Nat.eqb_neq.
  split; intros [H1 H2]; split; auto.
Qed.

Lemma remove_id_idem k l : remove_id k (remove_id k l) = remove_id k l.
Proof.
  unfold remove_id. induction l as [|x l IH]; simpl; [reflexivity|].
  destruct (Nat.eqb k x) eqn:E; simpl; [exact IH|].
  rewrite E. simpl. rewrite IH. reflexivity.
Qed.

Lemma remove_id_fresh n st l :
  Forall (fun k => k < n) l -> n <= st -> remove_id st (l ++ [st]) = l.
Proof.
  intros Hl Hle. unfold remove_id. rewrite filter_app. simpl.
  rewrite Nat.eqb_refl. simpl. rewrite app_nil_r.
  induction Hl as [|x l Hx Hl IH]; simpl; [reflexivity|].
  destruct (Nat.eqb st x) eqn:E; [apply Nat.eqb_eq in E; lia|].
  simpl. rewrite IH. reflexivity.
Qed.

(** What a granted start does to the capture streams. *)
Lemma start_granted_streams s :
  startMicBtn_disabled (dom s) = false ->
  exists s' st,
    exec start_granted s = Some s'
    /\ micStream (vars s') = Some st
    /\ live_streams (env s') = live_streams (env s) ++ [st]
    /\ next_id (env s) <= st
    /\ st < next_id (env s')
    /\ stopMicBtn_disabled (dom s') = false
    /\ startMicBtn_disabled (dom s') = false.
Proof.
  open_state s. simpl. intros ->.
  destruct ac as [c|]; destruct on.
  all: eexists; eexists.
  all: split; [run_events; reflexivity|].
  all: simpl; repeat split; lia.
Qed.

Lemma streams_known_step ev s : streams_known s -> streams_known (step ev s).
Proof.
  unfold streams_known. open_state s. simpl. intros [Hl Hm].
  assert (Hmono : forall n, nid <= n -> Forall (fun k => k < n) live)
    by (intros n Hle; eapply Forall_impl; [|exact Hl]; simpl; intros; lia).
  assert (Hrem : forall k n, nid <= n ->
                             Forall (fun j => j < n) (remove_id k live)).
  { intros k n Hle. apply Forall_forall. intros x Hx.
    apply In_remove_id in Hx. destruct Hx as [Hx _].
    rewrite Forall_forall in Hl. specialize (Hl _ Hx). simpl in Hl. lia. }
  destruct ev; js; branch; simpl.
  all: split;
    [try exact Hl; try (apply Hmono; lia); try (apply Hrem; lia);
     try (apply Forall_app; split;
          [apply Hmono; lia | apply Forall_cons; [lia | apply Forall_nil]])
    |intros k' E; try (inversion E; subst; lia);
     try (specialize (Hm _ E); lia)].
Qed.

Lemma reachable_streams_known s : reachable s -> streams_known s.
Proof.
  intros [evs H]. revert H.
  assert (H0 : streams_known init) by (split; [constructor | discriminate]).
  revert H0. generalize init. induction evs as [|ev evs IH]; simpl;
    intros s0 H0 Hex.
  - inversion Hex; subst; exact H0.
  - destruct (enabled ev s0); [|discriminate].
    apply (IH (step ev s0)); [apply streams_known_step, H0 | exact Hex].
Qed.

Lemma orphan_stream_step sid ev s :
  orphan_stream sid s -> orphan_stream sid (step ev s).
Proof.
  unfold orphan_stream. open_state s. simpl. intros (Hin & Hne & Hlt).
  destruct ev; js; branch; simpl.
  all: repeat split; try assumption; try lia.
  all: try (apply in_or_app; left; exact Hin).
  all: try (intros E; inversion E; lia).
  all: try (apply In_remove_id; split; [exact Hin | congruence]).
  all: try (apply in_or_app; left; apply In_remove_id; split;
            [exact Hin | congruence]).
Qed.

Lemma orphan_stream_exec sid evs : forall s s',
  orphan_stream sid s -> exec evs s = Some s' -> orphan_stream sid s'.
Proof.
  induction evs as [|ev evs IH]; simpl; intros s s' Ho Hex.
  - inversion Hex; subst; exact Ho.
  - destruct (enabled ev s); [|discriminate].
    eapply IH; [|exact Hex]. apply orphan_stream_step, Ho.
Qed.

(** X8.  The start control is never disabled, so the microphone can be
    started again while it runs.  The second start takes a new stream and
    forgets the first: from then on no event, stop included, releases the
    first stream; its tracks stay live as long as the page does. *)
Theorem second_start_orphans_stream s :
  reachable s ->
  exists s1 s2 sid,
    exec start_granted s = Some s1
    /\ micStream (vars s1) = Some sid
    /\ enabled ClickStart s1 = true
    /\ exec start_granted s1 = Some s2
    /\ micStream (vars s2) <> Some sid
    /\ forall evs s3, exec evs s2 = Some s3 -> In sid (live_streams (env s3)).
Proof.
  intros Hr.
  destruct (start_granted_streams s (wf_start s (reachable_wf s Hr)))
    as (s1 & sid & Hex1 & Hm1 & Hl1 & _ & Hlt1 & _ & Hst1).
  destruct (start_granted_streams s1 Hst1)
    as (s2 & st2 & Hex2 & Hm2 & Hl2 & Hle2 & Hlt2 & _ & _).
  exists s1, s2, sid.
  assert (Ho : orphan_stream sid s2).
  { split; [|split].
    - rewrite Hl2, Hl1. apply in_or_app. left. apply in_or_app. right.
      left. reflexivity.
    - rewrite Hm2. intros E. inversion E. lia.
    - lia. }
  split; [exact Hex1|]. split; [exact Hm1|].
  split; [simpl; rewrite Hst1; reflexivity|].
  split; [exact Hex2|]. split; [apply Ho|].
  intros evs s3 Hex3. apply (orphan_stream_exec sid evs s2 s3 Ho Hex3).
Qed.

Lemma second_start_orphans_stream_witness :
  reachable init
  /\ exists s2,
       exec (start_granted ++ start_granted) init = Some s2
       /\ forall s3, exec [ClickStop; ClickStart; MicSettled Denied] s2
                     = Some s3 ->
                     In 1 (live_streams (env s3)).
Proof.
  assert (R : reachable init) by (exists []; reflexivity).
  split; [exact R|].
  destruct (second_start_orphans_stream init R)
    as (s1 & s2 & sid & H1 & H2 & _ & H4 & _ & H6).
  exists s2. split.
  - rewrite exec_app, H1. exact H4.
  - intros s3 Hex.
    assert (E : Some s1 = Some (state_of (Ok tt s1))) by reflexivity.
    rewrite <- H1 in E. vm_compute in E. inversion E as [E1].
    rewrite <- E1 in H2. vm_compute in H2. inversion H2; subst sid.
    exact (H6 _ _ Hex).
Defined.

(** X9.  Started once and then stopped, the microphone is given back: the
    stream taken by the start is the one the stop releases, and the live
    tracks are the ones from before the start.  In any state, after
    [stopMicrophone] the stream [micStream] names has no live track. *)
Theorem start_stop_releases_stream s :
  reachable s ->
  (forall sid, micStream (vars s) = Some sid ->
              ~ In sid (live_streams (env (state_of (stopMicrophone s)))))
  /\ exists s1 s2 sid,
       exec start_granted s = Some s1
       /\ micStream (vars s1) = Some sid
       /\ In sid (live_streams (env s1))
       /\ exec [ClickStop] s1 = Some s2
       /\ live_streams (env s2) = live_streams (env s).
Proof.
  intros Hr. split.
  - open_state s. simpl. intros k ->.
    destruct aid as [[|i]|]; js; simpl; intros Hin;
      apply In_remove_id in Hin; tauto.
  - destruct (start_granted_streams s (wf_start s (reachable_wf s Hr)))
      as (s1 & sid & Hex1 & Hm1 & Hl1 & Hle & _ & Hs1 & _).
    destruct (reachable_streams_known s Hr) as [Hknown _].
    exists s1, (step ClickStop s1), sid.
    split; [exact Hex1|]. split; [exact Hm1|].
    split; [rewrite Hl1; apply in_or_app; right; left; reflexivity|].
    split; [simpl; rewrite Hs1; reflexivity|].
    assert (E : live_streams (env (step ClickStop s1)) =
                remove_id sid (live_streams (env s1))).
    { clear - Hm1. open_state s1. simpl in Hm1. subst ms.
      destruct aid as [[|i]|]; js; reflexivity. }
    rewrite E, Hl1. eapply remove_id_fresh; eassumption.
Qed.

Lemma start_stop_releases_stream_witness :
  reachable init
  /\ exists s2,
       exec (start_granted ++ [ClickStop]) init = Some s2
       /\ live_streams (env s2) = [].
Proof.
  assert (R : reachable init) by (exists []; reflexivity).
  split; [exact R|].
  destruct (start_stop_releases_stream init R)
    as (_ & s1 & s2 & sid & H1 & _ & _ & H4 & H5).
  exists s2. split; [rewrite exec_app, H1; exact H4 | exact H5].
Defined.

(** X10.  Stopping twice is stopping once: the second call of
    [stopMicrophone] leaves every variable, every control, the status
    text, the live tracks, the scheduled frames and the graph as the first
    call left them. *)
Theorem stopMicrophone_twice s :
  let s1 := state_of (stopMicrophone s) in
  let s2 := state_of (stopMicrophone s1) in
  returns (stopMicrophone s1) = true
  /\ vars s2 = vars s1
  /\ dom s2 = dom s1
  /\ live_streams (env s2) = live_streams (env s1)
  /\ frames (env s2) = frames (env s1)
  /\ graph (env s2) = graph (env s1)
  /\ playing (env s2) = playing (env s1).
Proof.
  open_state s. destruct ms as [k|]; destruct aid as [[|i]|]; js; simpl;
    rewrite ?remove_id_idem; repeat split.
Qed.

(** ** Replacing the dropped file *)

(** X11.  A second audio file dropped and decoded replaces the first: the
    held buffer is the new one, and the next click on play builds its
    player from the new buffer only. *)
Theorem second_drop_replaces_buffer s f1 f2 rest1 rest2 b1 b2 :
  reachable s ->
  prefix "audio/" (file_type f1) = true ->
  prefix "audio/" (file_type f2) = true ->
  exists s2 s3 c n,
    exec (drop_and_decode (f1 :: rest1) (Some b1)
          ++ drop_and_decode (f2 :: rest2) (Some b2)) s = Some s2
    /\ droppedAudioBuffer (vars s2) = Some b2
    /\ exec [ClickPlay] s2 = Some s3
    /\ droppedAudioSource (vars s3) = Some n
    /\ playing (env s3) = [n]
    /\ calls (env s3) =
       calls (env s2)
       ++ match droppedAudioSource (vars s) with
          | Some k => [CSourceStop k]
          | None => []
          end
       ++ [CCreateBufferSource n; CSetBuffer n b2;
           CConnect (BufSrc n) (Destination c); CSourceStart n].
Proof.
  intros Hr H1 H2.
  destruct (drop_outcomes s f1 rest1) as (_ & _ & Hd1 & _).
  destruct (Hd1 H1 b1) as (sa & Hexa & _ & _ & _).
  destruct (drop_outcomes sa f2 rest2) as (_ & _ & Hd2 & _).
  destruct (Hd2 H2 b2) as (s2 & Hex2 & _ & Hb2 & Hp2).
  assert (Hra : reachable sa) by (eapply reachable_exec; eassumption).
  assert (Hr2 : reachable s2) by (eapply reachable_exec; eassumption).
  destruct (playDroppedAudio_one_player s2 Hr2) as (_ & Hplay & _).
  destruct (Hplay b2 Hb2) as (s3 & c & n & Hrun & _ & _ & Hn & Hcalls & _
                              & Hpl & _).
  assert (Hsrc : droppedAudioSource (vars s2) = droppedAudioSource (vars s)).
  { assert (Hf : forall evs x y, exec evs x = Some y ->
                   forallb (fun ev => negb (mic_event ev)
                                      && match ev with ClickPlay => false
                                                  | _ => true end) evs = true ->
                   droppedAudioSource (vars y) = droppedAudioSource (vars x)).
    { induction evs as [|ev evs IH]; simpl; intros x y Hex Hall.
      - inversion Hex; subst; reflexivity.
      - destruct (enabled ev x); [|discriminate].
        apply andb_true_iff in Hall. destruct Hall as [Hev Hall].
        rewrite (IH _ _ Hex Hall). clear - Hev. open_state x.
        destruct ev; try discriminate Hev; js; branch; reflexivity. }
    rewrite (Hf _ _ _ Hex2 eq_refl). apply (Hf _ _ _ Hexa eq_refl). }
  exists s2, s3, c, n.
  split; [rewrite exec_app, Hexa; exact Hex2|].
  split; [exact Hb2|].
  split; [cbn [exec]; simpl enabled; rewrite Hp2; simpl; unfold step;
          simpl handle; rewrite Hrun; reflexivity|].
  split; [exact Hn|]. split; [exact Hpl|].
  rewrite Hcalls, Hsrc. reflexivity.
Qed.

Lemma second_drop_replaces_buffer_witness :
  reachable init
  /\ exists s2 s3 n,
       exec (drop_and_decode [mkFile "a.wav" "audio/wav"] (Some 1)
             ++ drop_and_decode [mkFile "b.ogg" "audio/ogg"] (Some 2)) init
       = Some s2
       /\ droppedAudioBuffer (vars s2) = Some 2
       /\ exec [ClickPlay] s2 = Some s3
       /\ playing (env s3) = [n].
Proof.
  assert (R : reachable init) by (exists []; reflexivity).
  split; [exact R|].
  destruct (second_drop_replaces_buffer init (mkFile "a.wav" "audio/wav")
              (mkFile "b.ogg" "audio/ogg") [] [] 1 2 R eq_refl eq_refl)
    as (s2 & s3 & c & n & H1 & H2 & H3 & _ & H5 & _).
  exists s2, s3, n. repeat split; assumption.
Defined.

(** ** The waveform *)

Lemma Qnat_S n : (Qnat (S n) == Qnat n + 1)%Q.
Proof.
  unfold Qnat. rewrite Nat2Z.inj_succ, <- Z.add_1_r, inject_Z_plus.
  reflexivity.
Qed.

Lemma Qnat_nonneg n : (0 <= Qnat n)%Q.
Proof.
  unfold Qnat. change 0%Q with (inject_Z 0). rewrite <- Zle_Qle. lia.
Qed.

Lemma Qnat_le n m : n <= m -> (Qnat n <= Qnat m)%Q.
Proof. intros H. unfold Qnat. rewrite <- Zle_Qle. lia. Qed.

Lemma Qnat_pos n : 0 < n -> (0 < Qnat n)%Q.
Proof.
  intros H. unfold Qnat. change 0%Q with (inject_Z 0). rewrite <- Zlt_Qlt.
  lia.
Qed.

Lemma plot_length sw h i x data :
  List.length (plot sw h i x data) = List.length data.
Proof.
  revert i x. induction data as [|d data IH]; simpl; intros i x;
    [reflexivity | rewrite IH; reflexivity].
Qed.

Lemma plot_lines sw h i x data :
  0 < i -> forallb is_line (plot sw h i x data) = true.
Proof.
  revert i x. induction data as [|d data IH]; simpl; intros i x Hi;
    [reflexivity|].
  destruct i as [|i]; [lia|]. simpl. apply IH. lia.
Qed.

Lemma sample_height d h :
  d <= 255 -> (0 <= h)%Q ->
  (0 <= Qnat d / 128 * h / 2 /\ Qnat d / 128 * h / 2 <= h)%Q.
Proof.
  intros Hd Hh.
  assert (H0 : (0 <= Qnat d)%Q) by apply Qnat_nonneg.
  assert (H1 : (Qnat d <= 256)%Q).
  { change 256%Q with (Qnat 256). apply Qnat_le. lia. }
  assert (E : (Qnat d / 128 * h / 2 == Qnat d * h * (1 # 256))%Q) by field.
  rewrite E.
  assert (P0 : (0 <= Qnat d * h)%Q) by (apply Qmult_le_0_compat; assumption).
  assert (P1 : (Qnat d * h <= 256 * h)%Q)
    by (apply Qmult_le_compat_r; assumption).
  split; lra.
Qed.

Lemma plot_within sw h i x data W :
  Forall (fun d => d <= 255) data ->
  (0 <= h)%Q -> (0 <= sw)%Q -> (0 <= x)%Q ->
  (x + Qnat (List.length data) * sw <= W + sw)%Q ->
  Forall (fun c => (0 <= cmd_x c /\ cmd_x c <= W)%Q
                   /\ (0 <= cmd_y c /\ cmd_y c <= h)%Q)
    (plot sw h i x data).
Proof.
  intros Hd Hh Hsw. revert i x.
  induction Hd as [|d data Hd0 Hd IH]; simpl; intros i x Hx Hlen;
    [constructor|].
  set (len := List.length data) in *.
  assert (Hq : (Qnat (S len) * sw == Qnat len * sw + sw)%Q)
    by (rewrite Qnat_S; ring).
  assert (Hp : (0 <= Qnat len * sw)%Q)
    by (apply Qmult_le_0_compat; [apply Qnat_nonneg | exact Hsw]).
  rewrite Hq in Hlen.
  constructor.
  - destruct (Nat.eqb i 0); simpl;
      (split; [split; lra | apply sample_height; assumption]).
  - apply IH; lra.
Qed.

(** X12.  Whatever bytes the analyser returns, the line [drawWaveform]
    strokes stays on the canvas: every point has its abscissa between 0
    and the canvas width and its ordinate between 0 and the canvas
    height. *)
Theorem waveform_within_canvas width height dataArray :
  Forall (fun sample => sample <= 255) dataArray ->
  Forall (fun c => (0 <= cmd_x c /\ cmd_x c <= Qnat width)%Q
                   /\ (0 <= cmd_y c /\ cmd_y c <= Qnat height)%Q)
    (waveform width height dataArray).
Proof.
  intros Hd. unfold waveform.
  pose proof (Qnat_nonneg width) as Hw. pose proof (Qnat_nonneg height) as Hh.
  apply Forall_app. split.
  - destruct dataArray as [|d rest]; [constructor|].
    set (n := List.length (d :: rest)).
    assert (Hn : (0 < Qnat n)%Q) by (apply Qnat_pos; unfold n; simpl; lia).
    assert (Hsw : (0 <= Qnat width / Qnat n)%Q).
    { apply Qle_shift_div_l; [exact Hn|]. lra. }
    apply plot_within; try assumption; try lra.
    assert (E : (Qnat n * (Qnat width / Qnat n) == Qnat width)%Q)
      by (field; lra).
    fold n. rewrite E. lra.
  - constructor; [|constructor]. cbn [cmd_x cmd_y].
    split; [split; lra|].
    split; [apply Qle_shift_div_l; lra | apply Qle_shift_div_r; lra].
Qed.

Lemma waveform_within_canvas_witness :
  Forall (fun sample => sample <= 255) [0; 128; 255; 64]
  /\ Forall (fun c => (0 <= cmd_x c /\ cmd_x c <= Qnat 600)%Q
                      /\ (0 <= cmd_y c /\ cmd_y c <= Qnat 100)%Q)
       (waveform 600 100 [0; 128; 255; 64]).
Proof.
  assert (H : Forall (fun sample => sample <= 255) [0; 128; 255; 64])
    by (repeat constructor; lia).
  split; [exact H | exact (waveform_within_canvas 600 100 _ H)].
Defined.

Lemma plot_abscissa sw h data : forall i x j c,
  nth_error (plot sw h i x data) j = Some c ->
  (cmd_x c == x + Qnat j * sw)%Q.
Proof.
  induction data as [|d data IH]; simpl; intros i x j c Hn.
  - destruct j; discriminate.
  - destruct j as [|j]; simpl in Hn.
    + inversion Hn; subst. destruct (Nat.eqb i 0); simpl;
        unfold Qnat; simpl; ring.
    + rewrite (IH _ _ _ _ Hn), Qnat_S. ring.
Qed.

Lemma plot_ordinate sw h data : forall i x j c,
  nth_error (plot sw h i x data) j = Some c ->
  exists d, nth_error data j = Some d /\ (cmd_y c == Qnat d * h / 256)%Q.
Proof.
  induction data as [|d data IH]; simpl; intros i x j c Hn.
  - destruct j; discriminate.
  - destruct j as [|j]; simpl in Hn.
    + inversion Hn; subst. exists d. split; [reflexivity|].
      destruct (Nat.eqb i 0); simpl; field.
    + apply (IH _ _ _ _ Hn).
Qed.

(** X13.  The stroked path has one command per sample and a closing one:
    it starts with a move to the left edge, continues with lines only, and
    ends with a line to the right edge at mid-height.  The j-th point has
    abscissa j * width / bufferLength (the running sum of [sliceWidth]) and
    ordinate sample * height / 256. *)
Theorem waveform_shape width height dataArray :
  dataArray <> [] ->
  let n := List.length dataArray in
  List.length (waveform width height dataArray) = S n
  /\ (exists y rest, waveform width height dataArray = MoveTo 0 y :: rest
                     /\ forallb is_line rest = true)
  /\ nth_error (waveform width height dataArray) n
     = Some (LineTo (Qnat width) (Qnat height / 2))
  /\ forall j sample,
       nth_error dataArray j = Some sample ->
       exists c, nth_error (waveform width height dataArray) j = Some c
                 /\ (cmd_x c == Qnat j * Qnat width / Qnat n)%Q
                 /\ (cmd_y c == Qnat sample * Qnat height / 256)%Q.
Proof.
  intros Hne n. unfold waveform. fold n.
  split; [|split; [|split]].
  - rewrite length_app, plot_length. simpl. fold n. lia.
  - destruct dataArray as [|d rest]; [congruence|]. simpl.
    eexists. eexists. split; [reflexivity|].
    rewrite forallb_app, plot_lines by lia. reflexivity.
  - rewrite nth_error_app2 by (rewrite plot_length; fold n; lia).
    rewrite plot_length. fold n. rewrite Nat.sub_diag. reflexivity.
  - intros j sample Hj.
    assert (Hlt : j < n) by (apply nth_error_Some; congruence).
    destruct (nth_error (plot (Qnat width / Qnat n) (Qnat height) 0 0%Q
                           dataArray) j) as [c|] eqn:Hc.
    + exists c. split.
      * rewrite nth_error_app1 by (rewrite plot_length; exact Hlt).
        exact Hc.
      * split.
        -- rewrite (plot_abscissa _ _ _ _ _ _ _ Hc).
           assert (Hn : (0 < Qnat n)%Q) by (apply Qnat_pos; lia).
           field. lra.
        -- destruct (plot_ordinate _ _ _ _ _ _ _ Hc) as (d & Hd & Hy).
           rewrite Hy. assert (d = sample) by congruence. subst d.
           reflexivity.
    + exfalso. apply nth_error_None in Hc. rewrite plot_length in Hc.
      fold n in Hc. lia.
Qed.

Lemma waveform_shape_witness :
  [128; 0; 255] <> []
  /\ List.length (waveform 300 100 [128; 0; 255]) = 4
  /\ exists c, nth_error (waveform 300 100 [128; 0; 255]) 2 = Some c
               /\ (cmd_x c == 200)%Q.
Proof.
  assert (Hne : [128; 0; 255] <> ([] : list nat)) by discriminate.
  split; [exact Hne|].
  destruct (waveform_shape 300 100 [128; 0; 255] Hne) as (H1 & _ & _ & H4).
  split; [exact H1|].
  destruct (H4 2 255 eq_refl) as (c & Hc & Hx & _).
  exists c. split; [exact Hc|]. rewrite Hx. reflexivity.
Defined.

(** X14.  Silence is a flat line at mid-height: when every sample is 128,
    every point of the stroked path has the ordinate height / 2. *)
Theorem waveform_of_silence width height dataArray :
  Forall (fun sample => sample = 128) dataArray ->
  Forall (fun c => (cmd_y c == Qnat height / 2)%Q)
    (waveform width height dataArray).
Proof.
  intros Hs. unfold waveform. apply Forall_app. split.
  - generalize 0 at 1. generalize 0%Q.
    generalize (Qnat width / Qnat (List.length dataArray))%Q.
    induction Hs as [|d data Hd Hs IH]; simpl; intros sw x i;
      [constructor|].
    constructor; [|apply IH].
    subst d. destruct (Nat.eqb i 0); simpl; unfold Qnat; simpl; field.
  - constructor; [|constructor]. simpl. reflexivity.
Qed.

Lemma waveform_of_silence_witness :
  Forall (fun sample => sample = 128) [128; 128; 128]
  /\ Forall (fun c => (cmd_y c == Qnat 100 / 2)%Q)
       (waveform 600 100 [128; 128; 128]).
Proof.
  assert (H : Forall (fun sample => sample = 128) [128; 128; 128])
    by (repeat constructor).
  split; [exact H | exact (waveform_of_silence 600 100 _ H)].
Defined.
